(** * An LRU cache with optional TTL: the hash index and the recency list

    Shallow embedding of [lrucache.go].  The Go program keeps its entries in
    heap cells linked by [prev]/[next] pointers and indexes them by a
    [map[interface{}]*entry].  The embedding keeps that shape: a cache value
    carries the cells it allocated ([heap]), pointers are locations, a [nil]
    pointer is [None], and every dereference is a lookup that fails when the
    pointer is [nil] or dangling (Go would panic there).

    Every method of the Go type runs with the cache's mutex held, and so does
    the body of one sweeper tick, so each of them is one atomic transition of
    the cache.  A cell that is unlinked stays in [heap]: Go's collector frees
    it only once nothing points to it, which no code can observe.

    The file embeds the version of [lrucache.go] with the TTL sweeper and
    [Stop] (the first of the file; the older versions after it lack them). *)

From stdpp Require Import gmap list sorting.
From Stdlib Require Import ZArith Lia.

(** Pointers to [entry] cells. *)
Abbreviation loc := positive.

(** [int64] arithmetic wraps around. *)
Definition wrap64 (z : Z) : Z := ((z + 2 ^ 63) mod 2 ^ 64 - 2 ^ 63)%Z.

Section LRU.

(** Keys are Go [interface{}] values used as map keys: an opaque type with a
    decidable equality (a key must be hashable and equal to itself, which
    excludes a slice and a NaN).  Values are [interface{}] too; [None] is
    Go's [nil], which is also what [Get] and [Remove] answer for a key that
    is absent. *)
Context {K : Type} `{Countable K} {V : Type}.

(** ** Data *)

Record entry := Entry {
  next : option loc;
  prev : option loc;
  key : K;
  value : option V;
  expireTime : Z        (* unix time, seconds *)
}.

Record lrucache := Cache {
  capacity : Z;
  ttlSeconds : Z;
  stopped : bool;
  head : option loc;
  tail : option loc;
  hash : gmap K loc;
  heap : gmap loc entry   (* the entry cells allocated so far *)
}.

(** Field assignments. *)
Definition set_next (x : option loc) (e : entry) : entry :=
  Entry x (prev e) (key e) (value e) (expireTime e).
Definition set_prev (x : option loc) (e : entry) : entry :=
  Entry (next e) x (key e) (value e) (expireTime e).
Definition set_value (x : option V) (e : entry) : entry :=
  Entry (next e) (prev e) (key e) x (expireTime e).
Definition set_expireTime (x : Z) (e : entry) : entry :=
  Entry (next e) (prev e) (key e) (value e) x.

Definition set_stopped (b : bool) (c : lrucache) : lrucache :=
  Cache (capacity c) (ttlSeconds c) b (head c) (tail c) (hash c) (heap c).
Definition set_head (x : option loc) (c : lrucache) : lrucache :=
  Cache (capacity c) (ttlSeconds c) (stopped c) x (tail c) (hash c) (heap c).
Definition set_tail (x : option loc) (c : lrucache) : lrucache :=
  Cache (capacity c) (ttlSeconds c) (stopped c) (head c) x (hash c) (heap c).
Definition set_hash (m : gmap K loc) (c : lrucache) : lrucache :=
  Cache (capacity c) (ttlSeconds c) (stopped c) (head c) (tail c) m (heap c).
Definition set_heap (h : gmap loc entry) (c : lrucache) : lrucache :=
  Cache (capacity c) (ttlSeconds c) (stopped c) (head c) (tail c) (hash c) h.

(** [p.f = x] for a field [f] of the cell at [p]: fails on a bad pointer. *)
Definition upd (p : loc) (f : entry → entry) (c : lrucache) : option lrucache :=
  match heap c !! p with
  | Some _ => Some (set_heap (alter f p (heap c)) c)
  | None => None
  end.

(** [&entry{...}]: a cell at an address not in use. *)
Definition alloc (en : entry) (c : lrucache) : loc * lrucache :=
  let p := fresh (dom (heap c)) in
  (p, set_heap (<[p := en]> (heap c)) c).

(** ** The recency list *)

(** [unlink]: must be called under lock. *)
Definition unlink (e : loc) (c : lrucache) : option lrucache :=
  en ← heap c !! e;
  c1 ← match prev en with
       | None => Some (set_head (next en) c)
       | Some p => upd p (set_next (next en)) c
       end;
  en1 ← heap c1 !! e;
  c2 ← match next en1 with
       | None => Some (set_tail (prev en1) c1)
       | Some n => upd n (set_prev (prev en1)) c1
       end;
  c3 ← upd e (set_prev None) c2;
  upd e (set_next None) c3.

(** [prepend]: must be called under lock. *)
Definition prepend (e : loc) (c : lrucache) : option lrucache :=
  c1 ← upd e (set_next (head c)) c;
  c2 ← match head c1 with
       | None => Some c1
       | Some h => upd h (set_prev (Some e)) c1
       end;
  let c3 := set_head (Some e) c2 in
  Some (match tail c3 with
        | None => set_tail (Some e) c3
        | Some _ => c3
        end).

(** Move an entry to the head of the list if it is not already there. *)
Definition promote (e : loc) (c : lrucache) : option lrucache :=
  if decide (Some e = head c) then Some c
  else c1 ← unlink e c; prepend e c1.

(** ** Constructors *)

Definition New (capacity : Z) : option lrucache :=
  if (capacity <=? 0)%Z then None
  else Some (Cache capacity 0 false None None ∅ ∅).

Definition NewWithTTL (capacity ttlSeconds : Z) : option lrucache :=
  if (capacity <=? 0)%Z then None
  else if (ttlSeconds <? 0)%Z then None
  else Some (Cache capacity ttlSeconds false None None ∅ ∅).

(** ** Methods *)

Definition Get (k : K) (c : lrucache) : option (option V * lrucache) :=
  match hash c !! k with
  | None => Some (None, c)
  | Some e =>
      c1 ← promote e c;
      en ← heap c1 !! e;
      Some (value en, c1)
  end.

(** The [expireTime] written at time [now] when TTL is enabled; [old]
    stays otherwise. *)
Definition expiry (now ttl old : Z) : Z :=
  if (0 <? ttl)%Z then wrap64 (now + ttl) else old.

(** [now] is the reading of [time.Now().Unix()]. *)
Definition stamp (now : Z) (e : loc) (c : lrucache) : option lrucache :=
  if (0 <? ttlSeconds c)%Z
  then upd e (set_expireTime (wrap64 (now + ttlSeconds c))) c
  else Some c.

Definition evict (c : lrucache) : option lrucache :=
  if (capacity c <? Z.of_nat (size (hash c)))%Z then
    last ← tail c;
    c1 ← unlink last c;
    en ← heap c1 !! last;
    Some (set_hash (delete (key en) (hash c1)) c1)
  else Some c.

Definition Put (now : Z) (k : K) (v : option V) (c : lrucache) : option lrucache :=
  match hash c !! k with
  | Some e =>
      c1 ← upd e (set_value v) c;
      c2 ← stamp now e c1;
      promote e c2
  | None =>
      let '(e, c1) := alloc (Entry None None k v 0) c in
      c2 ← stamp now e c1;
      c3 ← prepend e c2;
      evict (set_hash (<[k := e]> (hash c3)) c3)
  end.

Definition Remove (k : K) (c : lrucache) : option (option V * lrucache) :=
  match hash c !! k with
  | None => Some (None, c)
  | Some e =>
      c1 ← unlink e c;
      let c2 := set_hash (delete k (hash c1)) c1 in
      en ← heap c2 !! e;
      Some (value en, c2)
  end.

Definition Size (c : lrucache) : nat := size (hash c).
Definition Capacity (c : lrucache) : Z := capacity c.
Definition TTLSeconds (c : lrucache) : Z := ttlSeconds c.

Definition Clear (c : lrucache) : lrucache :=
  set_hash ∅ (set_tail None (set_head None c)).

Definition Stop (c : lrucache) : lrucache := set_stopped true c.

(** ** One tick of the sweeper

    The loop [for e := c.head; e != nil; { next := e.next; ...; e = next }]
    has no bound of its own; [fuel] bounds the number of iterations the
    model follows, and [None] also stands for a walk longer than that. *)

Fixpoint sweep (fuel : nat) (now : Z) (e : option loc) (c : lrucache) : option lrucache :=
  match e with
  | None => Some c
  | Some p =>
      match fuel with
      | O => None
      | S fuel' =>
          en ← heap c !! p;
          let nxt := next en in     (* saved: unlink sets it to nil *)
          c1 ← (if (expireTime en <=? now)%Z then
                  c' ← unlink p c;
                  en' ← heap c' !! p;
                  Some (set_hash (delete (key en') (hash c')) c')
                else Some c);
          sweep fuel' now nxt c1
      end
  end.

(** The locked body of one iteration of [pruneExpiredEntries]: the cache
    after it, and whether the goroutine's local [stopped] was set.  A
    well-formed list has as many entries as the index, which is the fuel. *)
Definition tick (now : Z) (c : lrucache) : option (lrucache * bool) :=
  if stopped c then Some (c, true)
  else c' ← sweep (size (hash c)) now (head c) c; Some (c', false).

(** ** What a cache holds *)

(** The part of an entry that is not list plumbing: key, value, expiry. *)
Definition item : Type := K * option V * Z.
Definition ikey (x : item) : K := x.1.1.
Definition ival (x : item) : option V := x.1.2.
Definition iexp (x : item) : Z := x.2.

Definition payload (en : entry) : item := (key en, value en, expireTime en).

(** Follow [next] from [p]. *)
Fixpoint walk (fuel : nat) (h : gmap loc entry) (p : option loc) : list loc :=
  match fuel, p with
  | S fuel', Some x =>
      x :: walk fuel' h (en ← h !! x; next en)
  | _, _ => []
  end.

(** The recency list, head first, and what it holds. *)
Definition entries (c : lrucache) : list loc := walk (size (heap c)) (heap c) (head c).
Definition contents (c : lrucache) : list item :=
  omap (λ p, payload <$> heap c !! p) (entries c).

(** A list of items without the one of key [k]. *)
Definition without (k : K) (al : list item) : list item :=
  filter (λ x, ikey x ≠ k) al.

(** The cells of [l] hold the items [al], in this order. *)
Definition cells (c : lrucache) (l : list loc) (al : list item) : Prop :=
  Forall2 (λ p it, payload <$> heap c !! p = Some it) l al.

(** The entry at [p] has not expired at [now]. *)
Definition live (h : gmap loc entry) (now : Z) (p : loc) : bool :=
  match h !! p with
  | Some en => negb (expireTime en <=? now)%Z
  | None => false
  end.

(** ** Well-formed caches *)

Definition pred_at (l : list loc) (i : nat) : option loc :=
  match i with O => None | S j => l !! j end.

(** The cells of [l] form a doubly-linked list in [h]: no [prev] before the
    first, no [next] after the last. *)
Definition linked (h : gmap loc entry) (l : list loc) : Prop :=
  ∀ i p, l !! i = Some p →
    ∃ en, h !! p = Some en ∧ prev en = pred_at l i ∧ next en = l !! S i.

Record is_list (c : lrucache) (l : list loc) : Prop := IsList {
  il_nodup : NoDup l;
  il_head : head c = l !! O;
  il_tail : tail c = last l;
  il_linked : linked (heap c) l
}.

(** The index holds exactly the cells of the list, each under its key. *)
Definition indexed (c : lrucache) (l : list loc) : Prop :=
  ∀ k p, hash c !! k = Some p ↔ p ∈ l ∧ ∃ en, heap c !! p = Some en ∧ key en = k.

Record wf (c : lrucache) (l : list loc) : Prop := Wf {
  wf_list : is_list c l;
  wf_index : indexed c l;
  wf_size : size (hash c) = length l
}.

(** [c] is well formed, its recency list is [l], and it is within its
    (positive) capacity. *)
Definition Repr (c : lrucache) (l : list loc) : Prop :=
  wf c l ∧ (Z.of_nat (length l) ≤ capacity c)%Z ∧ (0 < capacity c)%Z.

Definition Inv (c : lrucache) : Prop := ∃ l, Repr c l.

(** [c'] has the configuration of [c]. *)
Definition same_config (c c' : lrucache) : Prop :=
  capacity c' = capacity c ∧ ttlSeconds c' = ttlSeconds c ∧ stopped c' = stopped c.

(** [c'] differs from [c] in list plumbing only: the same cells, each with
    the same key, value and expiry. *)
Definition same_payload (c c' : lrucache) : Prop :=
  ∀ x, payload <$> heap c' !! x = payload <$> heap c !! x.

(** ** The sweeper goroutine and the cache together *)

Inductive sweeper_state :=
  | Starting    (* spawned by [NewWithTTL], before its first check *)
  | Sleeping    (* in its loop, between two ticks *)
  | Gone.       (* never spawned, or returned *)

Record system := System { cache : lrucache; sweeper : sweeper_state }.

Definition sys_New (capacity : Z) : option system :=
  c ← New capacity; Some (System c Gone).

(** [go pruneExpiredEntries(c)] *)
Definition sys_NewWithTTL (capacity ttlSeconds : Z) : option system :=
  c ← NewWithTTL capacity ttlSeconds; Some (System c Starting).

(** The goroutine runs up to the next point where it sleeps or returns.  Its
    first check reads [c.stopped] without the lock; the model reads the
    current value there.  Every later reading is the locked one of [tick]. *)
Definition pruneExpiredEntries (now : Z) (s : system) : option system :=
  match sweeper s with
  | Starting =>
      if bool_decide (ttlSeconds (cache s) = 0%Z) || stopped (cache s)
      then Some (System (cache s) Gone)
      else Some (System (cache s) Sleeping)
  | Sleeping =>
      '(c', stop) ← tick now (cache s);
      Some (System c' (if stop : bool then Gone else Sleeping))
  | Gone => Some s
  end.

(** What can happen to a cache: a call of a method that writes, or the
    sweeper being scheduled.  [Size], [Capacity] and [TTLSeconds] only read. *)
Inductive event :=
  | EGet (k : K)
  | EPut (now : Z) (k : K) (v : option V)
  | ERemove (k : K)
  | EClear
  | EStop
  | ESweeper (now : Z).

Definition step (ev : event) (s : system) : option system :=
  match ev with
  | EGet k => r ← Get k (cache s); Some (System r.2 (sweeper s))
  | EPut now k v => c' ← Put now k v (cache s); Some (System c' (sweeper s))
  | ERemove k => r ← Remove k (cache s); Some (System r.2 (sweeper s))
  | EClear => Some (System (Clear (cache s)) (sweeper s))
  | EStop => Some (System (Stop (cache s)) (sweeper s))
  | ESweeper now => pruneExpiredEntries now s
  end.

(** A trace, oldest event first. *)
Fixpoint run (tr : list event) (s : system) : option system :=
  match tr with
  | [] => Some s
  | ev :: tr' => s' ← step ev s; run tr' s'
  end.

(** A cache as a constructor returns it. *)
Definition initial (s : system) : Prop :=
  (∃ capacity, sys_New capacity = Some s) ∨
  (∃ capacity ttlSeconds, sys_NewWithTTL capacity ttlSeconds = Some s).

(** ** What a trace says about a key *)

Definition touches (ev : event) (k : K) : bool :=
  match ev with
  | EGet k' | EPut _ k' _ => bool_decide (k' = k)
  | _ => false
  end.

(** The position in [tr], counted from 1, of the last [Get] or [Put] of
    [k]; 0 when there is none. *)
Fixpoint last_touch (tr : list event) (k : K) : nat :=
  match tr with
  | [] => O
  | ev :: tr' =>
      match last_touch tr' k with
      | O => if touches ev k then 1%nat else O
      | S n => S (S n)
      end
  end.

Definition puts (ev : event) (k : K) : option (option V) :=
  match ev with
  | EPut _ k' v => if bool_decide (k' = k) then Some v else None
  | _ => None
  end.

(** The value of the last [Put] of [k] in [tr]. *)
Fixpoint last_put (tr : list event) (k : K) : option (option V) :=
  match tr with
  | [] => None
  | ev :: tr' =>
      match last_put tr' k with
      | Some v => Some v
      | None => puts ev k
      end
  end.

(** ** Invariants of a trace *)

(** How one event changes the contents [al] into [al']: entries leave, or
    the entry the event touches comes first and other entries leave. *)
Definition shape (ev : event) (al al' : list item) : Prop :=
  (al' `sublist_of` al ∧ ∀ x, x ∈ al' → touches ev (ikey x) = false) ∨
  (∃ it rest, al' = it :: rest ∧ rest `sublist_of` al ∧
     touches ev (ikey it) = true ∧
     (∀ x, x ∈ rest → touches ev (ikey x) = false) ∧
     match puts ev (ikey it) with
     | Some v => ival it = v
     | None => it ∈ al
     end).

(** Every entry holds the value last put under its key. *)
Definition values_ok (tr : list event) (al : list item) : Prop :=
  ∀ it, it ∈ al → last_put tr (ikey it) = Some (ival it).

(** The entries are in the order of their last touch, latest first. *)
Definition recent (tr : list event) (al : list item) : Prop :=
  StronglySorted (λ a b, last_touch tr (ikey b) < last_touch tr (ikey a)) al ∧
  Forall (λ a, 0 < last_touch tr (ikey a)) al.

(** The invariant of the data model, in the words of its description: the
    list and the index hold the same entries, their number is [Size] and at
    most the capacity, and in a non-empty list the head is the one entry
    without [prev] and the tail the one entry without [next]. *)
Definition structural (c : lrucache) : Prop :=
  let l := entries c in
  NoDup l ∧
  (∀ p, p ∈ l → ∃ en, heap c !! p = Some en ∧ hash c !! key en = Some p) ∧
  (∀ k p, hash c !! k = Some p → p ∈ l) ∧
  length l = size (hash c) ∧ Size c = length l ∧
  (Z.of_nat (Size c) ≤ capacity c)%Z ∧
  (l ≠ [] → ∃ h t, head c = Some h ∧ tail c = Some t ∧ h ∈ l ∧ t ∈ l ∧
     ∀ p en, p ∈ l → heap c !! p = Some en →
       (prev en = None ↔ p = h) ∧ (next en = None ↔ p = t)).

(** ** More readings of a trace *)

Definition put_key (ev : event) : option K :=
  match ev with
  | EPut _ k _ => Some k
  | _ => None
  end.


Definition put_time (ev : event) (k : K) : option Z :=
  match ev with
  | EPut now k' _ => if bool_decide (k' = k) then Some now else None
  | _ => None
  end.

(** The clock reading of the last [Put] of [k] in [tr]. *)
Fixpoint last_put_time (tr : list event) (k : K) : option Z :=
  match tr with
  | [] => None
  | ev :: tr' =>
      match last_put_time tr' k with
      | Some t => Some t
      | None => put_time ev k
      end
  end.

End LRU.

Arguments entry : clear implicits.
Arguments entry K V : assert.
Arguments lrucache : clear implicits.
Arguments lrucache K {_ _} V : assert.
Arguments system : clear implicits.
Arguments system K {_ _} V : assert.
Arguments event : clear implicits.
Arguments event K V : assert.
Arguments item : clear implicits.
Arguments item K V : assert.

(** ** A concrete cache

    Capacity 2, TTL one second.  The sweeper starts and ticks; key 7 is put
    at time 100 and key 8 at time 101, so the entries expire at 101 and 102.
    From 101 on, and until the sweeper's next tick, the entry of key 7 is in
    the cache although it has expired. *)
Definition ex_init : system nat nat :=
  System (Cache 2 1 false None None ∅ ∅) Starting.

Definition ex_trace : list (event nat nat) :=
  [ESweeper 100; EPut 100 7%nat (Some 42%nat);
   ESweeper 100; EPut 101 8%nat (Some 43%nat)].

Definition ex_sys : system nat nat := default ex_init (run ex_trace ex_init).

Definition ex_cache : lrucache nat nat := cache ex_sys.

(** The same cache after [Remove] of key 7: the cell of that entry is still
    allocated, outside the list. *)
Definition ex_removed : lrucache nat nat :=
  cache (default ex_init (run (ex_trace ++ [ERemove 7%nat]) ex_init)).

(** Capacity 1 and TTL disabled, from [NewWithTTL]; key 7 is put. *)
Definition ex_one_init : system nat nat :=
  System (Cache 1 0 false None None ∅ ∅) Starting.

Definition ex_one_trace : list (event nat nat) := [EPut 0 7%nat (Some 1%nat)].

Definition ex_one_sys : system nat nat :=
  default ex_one_init (run ex_one_trace ex_one_init).

(** An empty cache whose TTL is the largest [int64]. *)
Definition ex_huge_init : system nat nat :=
  System (Cache 2 (2 ^ 63 - 1) false None None ∅ ∅) Starting.



Section Theory.

Context {K : Type} `{Countable K} {V : Type}.
Implicit Types (c : lrucache K V) (l : list loc) (h : gmap loc (entry K V)).
Implicit Types (e p q : loc) (en : entry K V) (al : list (item K V)).
Implicit Types (s : system K V) (tr : list (event K V)) (ev : event K V).

(** ** Cells *)

Lemma upd_Some c p f :
  is_Some (heap c !! p) → upd p f c = Some (set_heap (alter f p (heap c)) c).
Proof. unfold upd. by intros [en ->]. Qed.

Ltac step_upd :=
  rewrite upd_Some by (simpl; rewrite ?lookup_alter_is_Some; eauto); simpl.

Ltac solve_cells :=
  let x := fresh "x" in intros x; simpl; rewrite ?lookup_alter;
  repeat (case_decide; simplify_eq; simpl; try done);
  try (match goal with H : ?m !! ?x = _ |- context [?m !! ?x] => rewrite H end; simpl; try done);
  try (destruct (_ !! x) as [[]|]; simpl; try done).

(** [unlink] in closed form: the cell itself is cleared, and a neighbour is
    redirected past it. *)
Lemma unlink_Some c e en :
  heap c !! e = Some en →
  (∀ p, prev en = Some p → p ≠ e ∧ is_Some (heap c !! p)) →
  (∀ n, next en = Some n → n ≠ e ∧ is_Some (heap c !! n)) →
  ∃ c', unlink e c = Some c' ∧
    capacity c' = capacity c ∧ ttlSeconds c' = ttlSeconds c ∧
    stopped c' = stopped c ∧ hash c' = hash c ∧
    head c' = (if prev en is None then next en else head c) ∧
    tail c' = (if next en is None then prev en else tail c) ∧
    ∀ x, heap c' !! x =
      if decide (x = e) then Some (Entry None None (key en) (value en) (expireTime en))
      else (λ ex, Entry (if decide (prev en = Some x) then next en else next ex)
                        (if decide (next en = Some x) then prev en else prev ex)
                        (key ex) (value ex) (expireTime ex)) <$> heap c !! x.
Proof.
  intros He Hp Hn. unfold unlink. rewrite He. simpl.
  destruct en as [nx pv k v t]; simpl in *.
  destruct pv as [p|]; destruct nx as [n|]; simpl.
  - destruct (Hp p eq_refl) as [Hpe Hep].
    destruct (Hn n eq_refl) as [Hne Hen].
    step_upd. rewrite lookup_alter_ne, He by done. simpl.
    do 3 step_upd.
    eexists; split; [done|]. repeat split. solve_cells.
  - destruct (Hp p eq_refl) as [Hpe Hep].
    step_upd. rewrite lookup_alter_ne, He by done. simpl.
    do 2 step_upd.
    eexists; split; [done|]. repeat split. solve_cells.
  - destruct (Hn n eq_refl) as [Hne Hen].
    rewrite He. simpl. do 3 step_upd.
    eexists; split; [done|]. repeat split. solve_cells.
  - rewrite He. simpl. do 2 step_upd.
    eexists; split; [done|]. repeat split. solve_cells.
Qed.

(** [prepend] in closed form, for a cell outside the list. *)
Lemma prepend_Some c e en :
  heap c !! e = Some en →
  (∀ x, head c = Some x → x ≠ e ∧ is_Some (heap c !! x)) →
  ∃ c', prepend e c = Some c' ∧
    capacity c' = capacity c ∧ ttlSeconds c' = ttlSeconds c ∧
    stopped c' = stopped c ∧ hash c' = hash c ∧
    head c' = Some e ∧
    tail c' = (if tail c is None then Some e else tail c) ∧
    ∀ x, heap c' !! x =
      if decide (x = e) then Some (set_next (head c) en)
      else (λ ex, if decide (head c = Some x) then set_prev (Some e) ex else ex)
             <$> heap c !! x.
Proof.
  intros He Hh. unfold prepend. step_upd.
  destruct (head c) as [hd|] eqn:Hx; simpl.
  - destruct (Hh hd eq_refl) as [Hxe Hex]. step_upd.
    eexists; split; [done|]. destruct (tail c) eqn:Ht; simpl; rewrite ?Hx, ?Ht; repeat split; try done; solve_cells.
  - eexists; split; [done|]. destruct (tail c) eqn:Ht; simpl; rewrite ?Hx, ?Ht; repeat split; try done; solve_cells.
Qed.

(** ** The list after [unlink] and [prepend] *)

Lemma linked_lookup h l i p :
  linked h l → l !! i = Some p → is_Some (h !! p).
Proof. intros Hl Hi. destruct (Hl i p Hi) as (en & -> & _). eauto. Qed.

Lemma is_list_unlink c l i e :
  is_list c l → l !! i = Some e →
  ∃ c' en, heap c !! e = Some en ∧ unlink e c = Some c' ∧
    is_list c' (delete i l) ∧ same_config c c' ∧ hash c' = hash c ∧
    same_payload c c' ∧
    heap c' !! e = Some (Entry None None (key en) (value en) (expireTime en)).
Proof.
  intros [Hnd Hhd Htl Hlk] Hi.
  destruct (Hlk i e Hi) as (en & He & Hpv & Hnx).
  pose proof (lookup_lt_Some _ _ _ Hi) as Hlen.
  destruct (unlink_Some c e en He) as (c' & Hun & Hcap & Httl & Hst & Hh & Hhd' & Htl' & Hcells).
  { intros p Hp. rewrite Hpv in Hp. destruct i as [|j]; [done|]. simpl in Hp. split.
    - intros ->. pose proof (NoDup_lookup _ _ _ _ Hnd Hp Hi). lia.
    - eapply linked_lookup; eauto. }
  { intros n Hn. rewrite Hnx in Hn. split.
    - intros ->. pose proof (NoDup_lookup _ _ _ _ Hnd Hn Hi). lia.
    - eapply linked_lookup; eauto. }
  exists c', en. split; [done|]. split; [done|]. split; [|split; [done|split; [done|split]]].
  - split.
    + eapply sublist_NoDup; [done|apply sublist_delete].
    + rewrite Hhd', Hpv. destruct i as [|j]; simpl.
      * rewrite Hnx. by destruct l.
      * assert (is_Some (l !! j)) as [? ->] by (apply lookup_lt_is_Some; lia).
        rewrite Hhd. by rewrite list_lookup_delete_lt by lia.
    + rewrite Htl', Hnx, last_lookup, length_delete by eauto.
      destruct (l !! S i) as [n|] eqn:Hn.
      * apply lookup_lt_Some in Hn. rewrite Htl, last_lookup.
        rewrite list_lookup_delete_ge by lia. f_equal. lia.
      * apply lookup_ge_None in Hn. rewrite Hpv. destruct i as [|j]; simpl.
        -- destruct l as [|? [|]]; simpl in *; try done; lia.
        -- rewrite list_lookup_delete_lt by lia. f_equal. lia.
    + intros j x Hj. rewrite Hcells.
      assert (x ≠ e) as Hxe.
      { intros ->. destruct (decide (j < i)).
        - rewrite list_lookup_delete_lt in Hj by done.
          pose proof (NoDup_lookup _ _ _ _ Hnd Hj Hi). lia.
        - rewrite list_lookup_delete_ge in Hj by lia.
          pose proof (NoDup_lookup _ _ _ _ Hnd Hj Hi). lia. }
      rewrite decide_False by done.
      destruct (decide (j < i)) as [Hlt|Hge].
      * rewrite list_lookup_delete_lt in Hj by done.
        destruct (Hlk j x Hj) as (ex & Hex & Hpx & Hnx').
        rewrite Hex. eexists; split; [done|]; simpl. split.
        -- rewrite decide_False.
           { rewrite Hpx. destruct j; simpl; [done|].
             by rewrite list_lookup_delete_lt by lia. }
           rewrite Hnx. intros Hc.
           pose proof (NoDup_lookup _ _ _ _ Hnd Hc Hj). lia.
        -- case_decide as Hd.
           ++ rewrite Hpv in Hd. destruct i as [|i0]; [done|]. simpl in Hd.
              pose proof (NoDup_lookup _ _ _ _ Hnd Hd Hj) as ->.
              rewrite Hnx. by rewrite list_lookup_delete_ge by lia.
           ++ rewrite Hnx'. assert (S j ≠ i) by (intros <-; apply Hd; by rewrite Hpv).
              by rewrite list_lookup_delete_lt by lia.
      * rewrite list_lookup_delete_ge in Hj by lia.
        destruct (Hlk (S j) x Hj) as (ex & Hex & Hpx & Hnx').
        rewrite Hex. eexists; split; [done|]; simpl. split.
        -- case_decide as Hd.
           ++ rewrite Hnx in Hd.
              pose proof (NoDup_lookup _ _ _ _ Hnd Hd Hj) as Hij.
              assert (j = i) as -> by lia.
              rewrite Hpv. destruct i; simpl; [done|].
              by rewrite list_lookup_delete_lt by lia.
           ++ rewrite Hpx. simpl.
              assert (j ≠ i) by (intros ->; apply Hd; by rewrite Hnx).
              destruct j as [|j0]; [lia|]. simpl.
              by rewrite list_lookup_delete_ge by lia.
        -- rewrite decide_False.
           { rewrite Hnx'. by rewrite list_lookup_delete_ge by lia. }
           rewrite Hpv. destruct i as [|i0]; [done|]. simpl. intros Hc.
           pose proof (NoDup_lookup _ _ _ _ Hnd Hc Hj). lia.
  - intros x. rewrite Hcells. case_decide as Hx; [subst; by rewrite He|].
    by destruct (heap c !! x).
  - rewrite Hcells. by rewrite decide_True.
Qed.

Lemma is_list_prepend c l e en :
  is_list c l → e ∉ l → heap c !! e = Some en → prev en = None →
  ∃ c', prepend e c = Some c' ∧
    is_list c' (e :: l) ∧ same_config c c' ∧ hash c' = hash c ∧
    same_payload c c'.
Proof.
  intros [Hnd Hhd Htl Hlk] Hel He Hpv.
  destruct (prepend_Some c e en He) as (c' & Hpr & Hcap & Httl & Hst & Hh & Hhd' & Htl' & Hcells).
  { intros x Hx. rewrite Hhd in Hx. split.
    - intros ->. apply Hel. by eapply list_elem_of_lookup_2.
    - eapply linked_lookup; eauto. }
  exists c'. split; [done|]. split; [|split; [done|split; [done|]]].
  - split.
    + by apply NoDup_cons.
    + done.
    + rewrite Htl', Htl, last_cons. by destruct (last l).
    + intros [|j] x Hj; simpl in Hj; rewrite Hcells.
      * simplify_eq. rewrite decide_True by done.
        eexists; split; [done|]. simpl. by rewrite Hpv, Hhd.
      * assert (x ≠ e) by (intros ->; apply Hel; by eapply list_elem_of_lookup_2).
        rewrite decide_False by done.
        destruct (Hlk j x Hj) as (ex & Hex & Hpx & Hnx).
        rewrite Hex. simpl. eexists; split; [done|].
        case_decide as Hd; simpl.
        -- rewrite Hhd in Hd. pose proof (NoDup_lookup _ _ _ _ Hnd Hd Hj) as <-.
           by rewrite Hnx.
        -- rewrite Hpx, Hnx. split; [|done].
           destruct j as [|j0]; [|done]. by rewrite Hhd in Hd.
  - intros x. rewrite Hcells. case_decide as Hx; [subst; by rewrite He|].
    destruct (heap c !! x); [|done]. simpl. by case_decide.
Qed.

(** ** Reading the list back *)

Lemma walk_linked h l fuel i :
  linked h l → length l - i ≤ fuel → walk fuel h (l !! i) = drop i l.
Proof.
  intros Hlk. revert i. induction fuel as [|f IH]; intros i Hf.
  - rewrite drop_ge by lia. done.
  - destruct (l !! i) as [x|] eqn:Hi.
    + destruct (Hlk i x Hi) as (ex & Hex & _ & Hnx). simpl.
      rewrite Hex. simpl. rewrite Hnx, IH by lia.
      symmetry. by apply drop_S.
    + apply lookup_ge_None in Hi. by rewrite drop_ge by lia.
Qed.

Lemma linked_length h l : NoDup l → linked h l → length l ≤ size h.
Proof.
  intros Hnd Hlk. rewrite <- (size_list_to_set (C := gset loc) l) by done.
  rewrite <- size_dom. apply subseteq_size.
  intros x Hx. apply elem_of_list_to_set, list_elem_of_lookup in Hx as [i Hi].
  apply elem_of_dom. eapply linked_lookup; eauto.
Qed.

Lemma is_list_entries c l : is_list c l → entries c = l.
Proof.
  intros [Hnd Hhd Htl Hlk]. unfold entries. rewrite Hhd.
  rewrite walk_linked; [done|done|]. pose proof (linked_length _ _ Hnd Hlk). lia.
Qed.

(** ** The index *)

Lemma same_payload_refl c : same_payload c c.
Proof. by intros x. Qed.

Lemma same_payload_trans c1 c2 c3 :
  same_payload c1 c2 → same_payload c2 c3 → same_payload c1 c3.
Proof. intros H12 H23 x. by rewrite H23, H12. Qed.

Lemma same_payload_key c c' p en' :
  same_payload c c' → heap c' !! p = Some en' →
  ∃ en, heap c !! p = Some en ∧ payload en = payload en'.
Proof.
  intros Hsp Hp. specialize (Hsp p). rewrite Hp in Hsp. simpl in Hsp.
  destruct (heap c !! p) as [en|]; [|done]. simpl in Hsp.
  exists en. split; [done|]. congruence.
Qed.

Lemma same_payload_sym c c' : same_payload c c' → same_payload c' c.
Proof. intros Hsp x. by rewrite Hsp. Qed.

Lemma same_config_refl c : same_config c c.
Proof. by repeat split. Qed.

Lemma same_config_trans c1 c2 c3 :
  same_config c1 c2 → same_config c2 c3 → same_config c1 c3.
Proof. unfold same_config. intros (?&?&?) (?&?&?). repeat split; congruence. Qed.

Lemma payload_key en en' : payload en = payload en' → key en = key en'.
Proof. unfold payload. congruence. Qed.

Lemma indexed_same c c' l l' :
  indexed c l → (∀ p, p ∈ l' ↔ p ∈ l) → hash c' = hash c → same_payload c c' →
  indexed c' l'.
Proof.
  unfold indexed. intros Hix Hel Hh Hsp k p. rewrite Hh, Hix, Hel.
  split; intros (Hp & en & Hen & Hk); (split; [done|]).
  - destruct (same_payload_key c' c p en) as (en' & ? & ?%payload_key);
      [by apply same_payload_sym|done|]. exists en'. split; congruence.
  - destruct (same_payload_key c c' p en) as (en' & ? & ?%payload_key); [done..|].
    exists en'. split; congruence.
Qed.

Lemma elem_of_delete_NoDup l i e p :
  NoDup l → l !! i = Some e → p ∈ delete i l ↔ p ∈ l ∧ p ≠ e.
Proof.
  intros Hnd Hi. rewrite !list_elem_of_lookup. split.
  - intros [j Hj]. destruct (decide (j < i)).
    + rewrite list_lookup_delete_lt in Hj by done. split; [eauto|].
      intros ->. pose proof (NoDup_lookup _ _ _ _ Hnd Hj Hi). lia.
    + rewrite list_lookup_delete_ge in Hj by lia. split; [eauto|].
      intros ->. pose proof (NoDup_lookup _ _ _ _ Hnd Hj Hi). lia.
  - intros [[j Hj] Hne]. destruct (decide (j < i)).
    + exists j. by rewrite list_lookup_delete_lt.
    + assert (j ≠ i) by (intros ->; congruence).
      exists (pred j). rewrite list_lookup_delete_ge by lia.
      by replace (S (pred j)) with j by lia.
Qed.

Lemma wf_cell c l i e :
  wf c l → l !! i = Some e →
  ∃ en, heap c !! e = Some en ∧ hash c !! key en = Some e.
Proof.
  intros [[_ _ _ Hlk] Hix _] Hi. destruct (Hlk i e Hi) as (en & He & _).
  exists en. split; [done|]. apply Hix. split; [by eapply list_elem_of_lookup_2|eauto].
Qed.

Lemma wf_hash c l k e :
  wf c l → hash c !! k = Some e →
  ∃ i en, l !! i = Some e ∧ heap c !! e = Some en ∧ key en = k.
Proof.
  intros [_ Hix _] Hk. apply Hix in Hk as (Hel & en & He & Hkey).
  apply list_elem_of_lookup in Hel as [i Hi]. eauto.
Qed.

(** An entry already in the list is moved to its head. *)
Lemma wf_promote c l i e :
  wf c l → l !! i = Some e →
  ∃ c', promote e c = Some c' ∧ wf c' (e :: delete i l) ∧
    same_config c c' ∧ hash c' = hash c ∧ same_payload c c' ∧ head c' = Some e.
Proof.
  intros Hwf Hi. pose proof Hwf as [Hil Hix Hsz]. unfold promote.
  case_decide as Hhd.
  - rewrite (il_head _ _ Hil) in Hhd.
    pose proof (NoDup_lookup _ _ _ _ (il_nodup _ _ Hil) Hi (eq_sym Hhd)) as ->.
    exists c. destruct l as [|x l]; simplify_eq/=.
    split; [done|]. split; [done|]. split; [apply same_config_refl|].
    split; [done|]. split; [apply same_payload_refl|]. by rewrite (il_head _ _ Hil).
  - destruct (is_list_unlink c l i e Hil Hi)
      as (c1 & en & He & Hun & Hil1 & Hcf1 & Hh1 & Hsp1 & He1).
    rewrite Hun. simpl.
    assert (e ∉ delete i l) as Hne.
    { rewrite (elem_of_delete_NoDup _ _ e) by (done || apply Hil). by intros [_ ?]. }
    destruct (is_list_prepend c1 (delete i l) e _ Hil1 Hne He1 eq_refl)
      as (c2 & Hpr & Hil2 & Hcf2 & Hh2 & Hsp2).
    exists c2. split; [done|].
    assert (same_payload c c2) as Hsp by (by eapply same_payload_trans).
    assert (hash c2 = hash c) as Hh by congruence.
    split; [|split; [by eapply same_config_trans|split; [done|split; [done|]]]].
    + split; [done| |].
      * eapply indexed_same; [done| |done|done].
        intros p. rewrite elem_of_cons, (elem_of_delete_NoDup _ _ e) by (done || apply Hil).
        split; [intros [->|[? _]]; [by eapply list_elem_of_lookup_2|done]|].
        intros ?. destruct (decide (p = e)); auto.
      * rewrite Hh, Hsz. simpl. rewrite length_delete by eauto.
        apply lookup_lt_Some in Hi. lia.
    + by rewrite (il_head _ _ Hil2).
Qed.

(** An entry is unlinked and its key deleted from the index. *)
Lemma wf_drop c l i e :
  wf c l → l !! i = Some e →
  ∃ c1 en, heap c !! e = Some en ∧ unlink e c = Some c1 ∧
    heap c1 !! e = Some (Entry None None (key en) (value en) (expireTime en)) ∧
    hash c1 = hash c ∧
    let c' := set_hash (delete (key en) (hash c1)) c1 in
    wf c' (delete i l) ∧ same_config c c' ∧ same_payload c c'.
Proof.
  intros Hwf Hi. pose proof Hwf as [Hil Hix Hsz].
  destruct (is_list_unlink c l i e Hil Hi)
    as (c1 & en & He & Hun & Hil1 & Hcf1 & Hh1 & Hsp1 & He1).
  destruct (wf_cell c l i e Hwf Hi) as (en' & He' & Hke). simplify_eq.
  exists c1, en. repeat (split; [done|]). simpl. split; [|done].
  split.
  - destruct Hil1. by split.
  - intros k p. simpl. rewrite Hh1, (elem_of_delete_NoDup _ _ e) by (done || apply Hil).
    split.
    + intros Hk. apply lookup_delete_Some in Hk as [Hne Hk].
      apply Hix in Hk as (Hp & ep & Hep & Hkp). split.
      * split; [done|]. intros ->. simplify_eq.
      * destruct (same_payload_key c1 c p ep) as (ep' & ? & ?%payload_key);
          [by apply same_payload_sym|done|]. exists ep'. split; congruence.
    + intros [[Hp Hpe] (ep & Hep & Hkp)].
      destruct (same_payload_key c c1 p ep) as (ep' & Hep' & Hk'%payload_key); [done..|].
      assert (hash c !! k = Some p) as Hk.
      { apply Hix. split; [done|]. exists ep'. split; congruence. }
      apply lookup_delete_Some. split; [|done]. intros <-. congruence.
  - simpl. rewrite Hh1, map_size_delete_Some by eauto.
    rewrite length_delete by eauto. lia.
Qed.

(** Cells may change as long as the cells of the list keep their links and
    their keys. *)
Lemma wf_cells c c' l :
  wf c l → head c' = head c → tail c' = tail c → hash c' = hash c →
  (∀ x en, x ∈ l → heap c !! x = Some en →
     ∃ en', heap c' !! x = Some en' ∧
       next en' = next en ∧ prev en' = prev en ∧ key en' = key en) →
  wf c' l.
Proof.
  intros [[Hnd Hhd Htl Hlk] Hix Hsz] Hhd' Htl' Hh Hcells. split; [split|..].
  - done.
  - congruence.
  - congruence.
  - intros i p Hi. destruct (Hlk i p Hi) as (en & Hen & Hpv & Hnx).
    destruct (Hcells p en) as (en' & Hen' & ? & ? & ?);
      [by eapply list_elem_of_lookup_2|done|].
    exists en'. split; [done|]. split; congruence.
  - intros k p. rewrite Hh. unfold indexed in Hix. rewrite Hix.
    split; intros (Hp & en & Hen & Hk); (split; [done|]).
    + destruct (Hcells p en Hp Hen) as (en' & Hen' & _ & _ & ?).
      exists en'. split; congruence.
    + apply list_elem_of_lookup in Hp as Hp'. destruct Hp' as [i Hi].
      destruct (Hlk i p Hi) as (en0 & Hen0 & _).
      destruct (Hcells p en0 Hp Hen0) as (en' & Hen' & _ & _ & ?).
      exists en0. split; congruence.
  - congruence.
Qed.

Lemma wf_upd c l e f :
  wf c l → is_Some (heap c !! e) →
  (∀ en, next (f en) = next en ∧ prev (f en) = prev en ∧ key (f en) = key en) →
  upd e f c = Some (set_heap (alter f e (heap c)) c) ∧
  wf (set_heap (alter f e (heap c)) c) l.
Proof.
  intros Hwf He Hf. split; [by apply upd_Some|].
  eapply wf_cells; [done..|]. simpl. intros x en _ Hx.
  rewrite lookup_alter. case_decide; subst; rewrite Hx; simpl; [|by eauto].
  exists (f en). split; [done|]. apply Hf.
Qed.

(** What [stamp] leaves in the [expireTime] field. *)
Lemma wf_stamp now c l e :
  wf c l → is_Some (heap c !! e) →
  ∃ c', stamp now e c = Some c' ∧ wf c' l ∧ same_config c c' ∧
    hash c' = hash c ∧ head c' = head c ∧
    ∀ x, heap c' !! x =
      if decide (x = e)
      then (λ en, set_expireTime (expiry now (ttlSeconds c) (expireTime en)) en)
             <$> heap c !! x
      else heap c !! x.
Proof.
  intros Hwf He. unfold stamp, expiry. destruct (0 <? ttlSeconds c)%Z.
  - destruct (wf_upd c l e (set_expireTime (wrap64 (now + ttlSeconds c))) Hwf He)
      as [Hupd Hwf']; [by repeat split|]. rewrite Hupd.
    eexists. split; [done|]. split; [done|]. repeat split.
    intros x. simpl. rewrite lookup_alter. by repeat case_decide; simplify_eq.
  - exists c. split; [done|]. split; [done|]. split; [apply same_config_refl|].
    split; [done|]. split; [done|]. intros x. case_decide; [|done].
    by destruct (heap c !! x) as [[]|].
Qed.

Lemma wf_alloc c l en0 :
  wf c l →
  ∃ e c1, alloc en0 c = (e, c1) ∧ wf c1 l ∧ (e ∉ l) ∧ heap c !! e = None ∧
    same_config c c1 ∧ hash c1 = hash c ∧
    ∀ x, heap c1 !! x = if decide (x = e) then Some en0 else heap c !! x.
Proof.
  intros Hwf. unfold alloc. set (e := fresh (dom (heap c))).
  assert (heap c !! e = None) as He.
  { apply not_elem_of_dom. apply is_fresh. }
  assert (e ∉ l) as Hel.
  { intros [i Hi]%list_elem_of_lookup.
    destruct (linked_lookup _ _ _ _ (il_linked _ _ (wf_list _ _ Hwf)) Hi). congruence. }
  eexists _, _. split; [done|]. split; [|split; [done|split; [done|repeat split]]].
  - eapply wf_cells; [done..|]. simpl. intros x en Hx Hen.
    rewrite lookup_insert_ne by (intros <-; done). eauto.
  - intros x. simpl. rewrite lookup_insert. by repeat case_decide.
Qed.

(** A cell outside the list is linked in at the head and indexed. *)
Lemma wf_link c l e en :
  wf c l → e ∉ l → heap c !! e = Some en → prev en = None →
  hash c !! key en = None →
  ∃ c1, prepend e c = Some c1 ∧ hash c1 = hash c ∧
    let c' := set_hash (<[key en := e]> (hash c1)) c1 in
    wf c' (e :: l) ∧ same_config c c' ∧ same_payload c c'.
Proof.
  intros Hwf Hel He Hpv Hk. pose proof Hwf as [Hil Hix Hsz].
  destruct (is_list_prepend c l e en Hil Hel He Hpv)
    as (c1 & Hpr & Hil1 & Hcf1 & Hh1 & Hsp1).
  exists c1. split; [done|]. split; [done|]. simpl. split; [|done].
  split.
  - destruct Hil1. by split.
  - intros k p. simpl. rewrite Hh1, elem_of_cons. split.
    + intros Hins. apply lookup_insert_Some in Hins as [[<- <-]|[Hne Hins]].
      * split; [by left|].
        specialize (Hsp1 e). rewrite He in Hsp1.
        destruct (heap c1 !! e) as [en1|] eqn:Hen1; [|done].
        exists en1. split; [done|]. simpl in Hsp1. apply payload_key. congruence.
      * apply Hix in Hins as (Hp & ep & Hep & Hkp). split; [by right|].
        destruct (same_payload_key c1 c p ep) as (ep' & ? & ?%payload_key);
          [by apply same_payload_sym|done|]. exists ep'. split; congruence.
    + intros [Hp (ep & Hep & Hkp)].
      destruct (same_payload_key c c1 p ep) as (ep' & Hep' & Hk'%payload_key); [done..|].
      destruct Hp as [->|Hp].
      * simplify_eq. rewrite Hk'. apply lookup_insert_eq.
      * assert (hash c !! k = Some p) as Hhp.
        { apply Hix. split; [done|]. exists ep'. split; congruence. }
        rewrite lookup_insert_ne; [done|]. intros <-. congruence.
  - simpl. rewrite Hh1, map_size_insert_None by done. by rewrite Hsz.
Qed.

(** The check after an insertion: over capacity, the tail goes. *)
Lemma wf_evict c l :
  wf c l → l ≠ [] →
  ∃ c', evict c = Some c' ∧ same_config c c' ∧ same_payload c c' ∧
    wf c' (if (capacity c <? Z.of_nat (length l))%Z
           then delete (pred (length l)) l else l).
Proof.
  intros Hwf Hl. unfold evict. rewrite (wf_size _ _ Hwf).
  destruct (capacity c <? Z.of_nat (length l))%Z.
  - rewrite (il_tail _ _ (wf_list _ _ Hwf)).
    destruct (last l) as [e|] eqn:He; [|by apply last_None in He].
    rewrite last_lookup in He. simpl.
    destruct (wf_drop c l _ e Hwf He)
      as (c1 & en & Hen & Hun & Hen1 & Hh1 & Hwf1 & Hcf1 & Hsp1).
    rewrite Hun. simpl. rewrite Hen1. simpl. eauto.
  - exists c. split; [done|]. split; [apply same_config_refl|].
    split; [apply same_payload_refl|done].
Qed.

(** ** The methods on a well-formed cache *)

Lemma wf_Get c l k e :
  wf c l → hash c !! k = Some e →
  ∃ i en c', l !! i = Some e ∧ heap c !! e = Some en ∧ key en = k ∧
    Get k c = Some (value en, c') ∧ wf c' (e :: delete i l) ∧
    same_config c c' ∧ hash c' = hash c ∧ same_payload c c' ∧ head c' = Some e.
Proof.
  intros Hwf Hk. destruct (wf_hash c l k e Hwf Hk) as (i & en & Hi & He & Hkey).
  destruct (wf_promote c l i e Hwf Hi) as (c' & Hpr & Hwf' & Hcf & Hh & Hsp & Hhd).
  exists i, en, c'. repeat (split; [done|]).
  split; [|done]. unfold Get. rewrite Hk, Hpr. simpl.
  specialize (Hsp e). rewrite He in Hsp.
  destruct (heap c' !! e) as [en'|]; [|done]. simpl in *.
  unfold payload in Hsp. congruence.
Qed.

Lemma wf_Put_hit now c l k v e :
  wf c l → hash c !! k = Some e →
  ∃ i en c', l !! i = Some e ∧ heap c !! e = Some en ∧ key en = k ∧
    Put now k v c = Some c' ∧ wf c' (e :: delete i l) ∧
    same_config c c' ∧ hash c' = hash c ∧ head c' = Some e ∧
    ∀ x, payload <$> heap c' !! x =
      if decide (x = e)
      then Some (k, v, expiry now (ttlSeconds c) (expireTime en))
      else payload <$> heap c !! x.
Proof.
  intros Hwf Hk. destruct (wf_hash c l k e Hwf Hk) as (i & en & Hi & He & Hkey).
  destruct (wf_upd c l e (set_value v) Hwf) as [Hupd Hwf1]; [by eauto|by repeat split|].
  set (c1 := set_heap (alter (set_value v) e (heap c)) c) in *.
  destruct (wf_stamp now c1 l e Hwf1) as (c2 & Hst & Hwf2 & Hcf2 & Hh2 & Hhd2 & Hcells2).
  { simpl. rewrite lookup_alter_eq, He. eauto. }
  destruct (wf_promote c2 l i e Hwf2 Hi) as (c' & Hpr & Hwf' & Hcf & Hh & Hsp & Hhd).
  exists i, en, c'. repeat (split; [done|]).
  split; [|split; [done|split; [|split; [by rewrite Hh, Hh2|split; [done|]]]]].
  - unfold Put. rewrite Hk, Hupd. simpl. rewrite Hst. simpl. done.
  - eapply same_config_trans; [|done]. eapply same_config_trans; [|done]. done.
  - intros x. rewrite Hsp, Hcells2. simpl. rewrite lookup_alter.
    case_decide; [|by rewrite decide_False by done].
    subst. rewrite decide_True, He by done. simpl. unfold payload. simpl. done.
Qed.

Lemma wf_Put_miss now c l k v :
  wf c l → hash c !! k = None →
  ∃ e c', heap c !! e = None ∧ (e ∉ l) ∧ Put now k v c = Some c' ∧
    wf c' (if (capacity c <? Z.of_nat (S (length l)))%Z
           then delete (length l) (e :: l) else e :: l) ∧
    same_config c c' ∧
    ∀ x, payload <$> heap c' !! x =
      if decide (x = e)
      then Some (k, v, expiry now (ttlSeconds c) 0)
      else payload <$> heap c !! x.
Proof.
  intros Hwf Hk.
  destruct (wf_alloc c l (Entry None None k v 0) Hwf)
    as (e & c1 & Hal & Hwf1 & Hel & He & Hcf1 & Hh1 & Hcells1).
  destruct (wf_stamp now c1 l e Hwf1) as (c2 & Hst & Hwf2 & Hcf2 & Hh2 & Hhd2 & Hcells2).
  { rewrite Hcells1, decide_True by done. eauto. }
  assert (heap c2 !! e =
    Some (Entry None None k v (expiry now (ttlSeconds c) 0))) as He2.
  { rewrite Hcells2, decide_True, Hcells1, decide_True by done. simpl.
    destruct Hcf1 as (_ & -> & _). done. }
  destruct (wf_link c2 l e _ Hwf2 Hel He2 eq_refl)
    as (c3 & Hpr & Hh3 & Hwf3 & Hcf3 & Hsp3); [simpl; congruence|].
  simpl in *.
  set (c4 := set_hash (<[k:=e]> (hash c3)) c3) in *.
  destruct (wf_evict c4 (e :: l) Hwf3) as (c' & Hev & Hcf' & Hsp' & Hwf'); [done|].
  assert (same_config c c4) as Hcf4.
  { eapply same_config_trans; [|done]. eapply same_config_trans; [|done]. done. }
  exists e, c'. split; [done|]. split; [done|]. split; [|split; [|split]].
  - unfold Put. rewrite Hk, Hal. rewrite Hst. simpl. rewrite Hpr. simpl. done.
  - simpl in Hwf'. destruct Hcf4 as (<- & _). done.
  - by eapply same_config_trans.
  - intros x. rewrite Hsp', Hsp3, Hcells2, Hcells1.
    case_decide; [|done]. simpl. by destruct Hcf1 as (_ & -> & _).
Qed.

Lemma wf_Remove c l k e :
  wf c l → hash c !! k = Some e →
  ∃ i en c', l !! i = Some e ∧ heap c !! e = Some en ∧ key en = k ∧
    Remove k c = Some (value en, c') ∧ wf c' (delete i l) ∧
    same_config c c' ∧ hash c' = delete k (hash c) ∧ same_payload c c'.
Proof.
  intros Hwf Hk. destruct (wf_hash c l k e Hwf Hk) as (i & en & Hi & He & Hkey).
  destruct (wf_drop c l i e Hwf Hi)
    as (c1 & en' & Hen & Hun & Hen1 & Hh1 & Hwf1 & Hcf1 & Hsp1).
  simplify_eq. eexists i, en, _. repeat (split; [done|]).
  split; [|split; [done|split; [done|split; [|done]]]].
  - unfold Remove. rewrite Hk, Hun. simpl. rewrite Hen1. done.
  - simpl. by rewrite Hh1.
Qed.

Lemma wf_Clear c l : wf c l → wf (Clear c) [].
Proof.
  intros _. split; [split|..]; simpl; try done.
  - constructor.
  - intros k p. simpl. rewrite lookup_empty. split; [done|]. by intros [?%elem_of_nil _].
Qed.

Lemma wf_Stop c l : wf c l → wf (Stop c) l.
Proof. intros [[] ? ?]. by split; [split|..]. Qed.

(** ** The sweep *)

Lemma live_same c c' now p :
  same_payload c c' → live (heap c') now p = live (heap c) now p.
Proof.
  intros Hsp. unfold live. specialize (Hsp p).
  destruct (heap c' !! p) as [en'|], (heap c !! p) as [en|]; try done.
  simpl in Hsp. unfold payload in Hsp. by replace (expireTime en') with (expireTime en) by congruence.
Qed.

(** The loop, having kept [dn] and standing at the first cell of [rs]. *)
Lemma wf_sweep now rs : ∀ dn c fuel,
  wf c (dn ++ rs) → length rs ≤ fuel →
  ∃ c', sweep fuel now (rs !! 0) c = Some c' ∧
    wf c' (dn ++ filter (λ p, live (heap c) now p) rs) ∧
    same_config c c' ∧ same_payload c c'.
Proof.
  induction rs as [|p rs IH]; intros dn c fuel Hwf Hfuel.
  - exists c. destruct fuel; simpl; (split; [done|]); rewrite ?app_nil_r in *;
      (split; [done|]); split; auto using same_config_refl, same_payload_refl.
  - destruct fuel as [|fuel]; [simpl in Hfuel; lia|]. simpl in Hfuel.
    assert ((dn ++ p :: rs) !! length dn = Some p) as Hi by apply list_lookup_middle, eq_refl.
    destruct (il_linked _ _ (wf_list _ _ Hwf) _ _ Hi) as (en & Hen & _ & Hnx).
    assert (next en = rs !! 0) as Hnx'.
    { rewrite Hnx. rewrite lookup_app_r by lia.
      by replace (S (length dn) - length dn) with 1 by lia. }
    simpl. rewrite Hen. simpl. rewrite Hnx'.
    assert (live (heap c) now p = negb (expireTime en <=? now)%Z) as Hlive
      by (unfold live; by rewrite Hen).
    destruct (expireTime en <=? now)%Z eqn:Hexp.
    + destruct (wf_drop c _ _ p Hwf Hi)
        as (c1 & en' & Hen' & Hun & Hen1 & Hh1 & Hwf1 & Hcf1 & Hsp1).
      simplify_eq. rewrite Hun. simpl. rewrite Hen1. simpl.
      rewrite delete_middle in Hwf1.
      destruct (IH dn _ fuel Hwf1) as (c' & Hsw & Hwf' & Hcf' & Hsp'); [lia|].
      exists c'. split; [done|]. split; [|split].
      * rewrite filter_cons_False by (rewrite Hlive; simpl; tauto).
        erewrite list_filter_iff; [done|]. intros x. cbv beta.
        by rewrite (live_same c _ now x Hsp1).
      * by eapply same_config_trans.
      * by eapply same_payload_trans.
    + rewrite (cons_middle p dn rs), app_assoc in Hwf.
      destruct (IH (dn ++ [p]) c fuel Hwf) as (c' & Hsw & Hwf' & Hcf' & Hsp'); [lia|].
      exists c'. split; [done|]. split; [|done].
      rewrite filter_cons_True by (rewrite Hlive; simpl; tauto).
      by rewrite (cons_middle p dn), app_assoc.
Qed.

Lemma wf_tick now c l :
  wf c l → stopped c = false →
  ∃ c', tick now c = Some (c', false) ∧
    wf c' (filter (λ p, live (heap c) now p) l) ∧
    same_config c c' ∧ same_payload c c'.
Proof.
  intros Hwf Hst. unfold tick. rewrite Hst.
  rewrite (il_head _ _ (wf_list _ _ Hwf)), (wf_size _ _ Hwf).
  destruct (wf_sweep now l [] c (length l) Hwf) as (c' & -> & ?); [done|].
  exists c'. done.
Qed.

(** The fuel only bounds the walk: more of it gives the same cache. *)
Lemma sweep_more_fuel now fuel : ∀ fuel' (o : option loc) c c',
  sweep fuel now o c = Some c' → fuel ≤ fuel' → sweep fuel' now o c = Some c'.
Proof.
  induction fuel as [|fuel IH]; intros fuel' o c c' Hsw Hle.
  - destruct o; [done|]. by destruct fuel'.
  - destruct o as [p|]; [|by destruct fuel'].
    destruct fuel' as [|fuel']; [lia|]. simpl in *.
    destruct (heap c !! p) as [en|]; [|done]. simpl in *.
    destruct (if (expireTime en <=? now)%Z then _ else _) as [c1|]; [|done].
    simpl in *. apply (IH fuel'); [done|lia].
Qed.

(** ** From cells to contents *)

Lemma cells_exist c l : wf c l → cells c l (contents c).
Proof.
  intros Hwf. unfold contents, cells.
  rewrite (is_list_entries c l (wf_list _ _ Hwf)).
  assert (∀ p, p ∈ l → is_Some (heap c !! p)) as Hall.
  { intros p [i Hi]%list_elem_of_lookup.
    eapply linked_lookup; [apply Hwf|done]. }
  clear Hwf. induction l as [|p l IH]; simpl; [constructor|].
  destruct (Hall p) as [en Hen]; [by left|]. rewrite Hen. simpl.
  constructor; [by rewrite Hen|]. apply IH. intros q Hq. apply Hall. by right.
Qed.

Lemma cells_contents c l al : wf c l → cells c l al → contents c = al.
Proof.
  intros Hwf Hal. pose proof (cells_exist c l Hwf) as Hc.
  eapply Forall2_unique; [exact Hc|exact Hal|].
  intros p x y Hx Hy. simpl in *. congruence.
Qed.

Lemma cells_impl c c' l al :
  cells c l al →
  (∀ p, p ∈ l → payload <$> heap c' !! p = payload <$> heap c !! p) →
  cells c' l al.
Proof.
  unfold cells. induction 1 as [|p it l al Hp Hal IH]; intros Hsame; constructor.
  - rewrite Hsame; [done|by left].
  - apply IH. intros q Hq. apply Hsame. by right.
Qed.

Lemma cells_lookup c l al i p :
  cells c l al → l !! i = Some p →
  ∃ it, al !! i = Some it ∧ payload <$> heap c !! p = Some it.
Proof. intros Hal Hi. by eapply Forall2_lookup_l in Hal. Qed.

Lemma cells_lookup_r c l al i it :
  cells c l al → al !! i = Some it →
  ∃ p, l !! i = Some p ∧ payload <$> heap c !! p = Some it.
Proof. intros Hal Hi. by eapply Forall2_lookup_r in Hal. Qed.

Lemma payload_Some c p it :
  payload <$> heap c !! p = Some it →
  ∃ en, heap c !! p = Some en ∧ key en = ikey it ∧ value en = ival it
        ∧ expireTime en = iexp it.
Proof.
  destruct (heap c !! p) as [en|]; [|done]. simpl. intros [= <-]. by exists en.
Qed.

Lemma cells_keys_NoDup c l al : wf c l → cells c l al → NoDup (ikey <$> al).
Proof.
  intros Hwf Hal. apply NoDup_alt. intros i j k Hi Hj.
  apply list_lookup_fmap_Some in Hi as (iti & Hki & Hi).
  apply list_lookup_fmap_Some in Hj as (itj & Hkj & Hj).
  destruct (cells_lookup_r _ _ _ _ _ Hal Hi) as (p & Hp & (enp & Henp & Hkp & _)%payload_Some).
  destruct (cells_lookup_r _ _ _ _ _ Hal Hj) as (q & Hq & (enq & Henq & Hkq & _)%payload_Some).
  assert (hash c !! k = Some p) as Hhp.
  { apply (wf_index _ _ Hwf). split; [by eapply list_elem_of_lookup_2|].
    exists enp. split; congruence. }
  assert (hash c !! k = Some q) as Hhq.
  { apply (wf_index _ _ Hwf). split; [by eapply list_elem_of_lookup_2|].
    exists enq. split; congruence. }
  simplify_eq. eapply NoDup_lookup; [apply Hwf|done..].
Qed.

Lemma cells_hash_None c l al k :
  wf c l → cells c l al → hash c !! k = None ↔ k ∉ ikey <$> al.
Proof.
  intros Hwf Hal. split.
  - intros Hk (it & -> & [i Hi]%list_elem_of_lookup)%list_elem_of_fmap.
    destruct (cells_lookup_r _ _ _ _ _ Hal Hi) as (p & Hp & (en & Hen & Hkey & _)%payload_Some).
    assert (hash c !! ikey it = Some p); [|congruence].
    apply (wf_index _ _ Hwf). split; [by eapply list_elem_of_lookup_2|eauto].
  - intros Hk. destruct (hash c !! k) as [e|] eqn:He; [|done]. exfalso. apply Hk.
    destruct (wf_hash c l k e Hwf He) as (i & en & Hi & Hen & Hkey).
    destruct (cells_lookup _ _ _ _ _ Hal Hi) as (it & Hit & Hp).
    rewrite Hen in Hp. simpl in Hp. simplify_eq.
    apply list_elem_of_fmap. eexists. split; [|by eapply list_elem_of_lookup_2]. done.
Qed.

Lemma without_absent k al : k ∉ ikey <$> al → without k al = al.
Proof.
  unfold without. induction al as [|x al IH]; [done|]. intros Hk.
  rewrite fmap_cons in Hk. apply not_elem_of_cons in Hk as [Hx Hk].
  rewrite filter_cons_True by done. by rewrite IH.
Qed.

Lemma without_delete al i it :
  NoDup (ikey <$> al) → al !! i = Some it → delete i al = without (ikey it) al.
Proof.
  unfold without. revert i. induction al as [|x al IH]; intros i Hnd Hi; [done|].
  rewrite fmap_cons in Hnd. apply NoDup_cons in Hnd as [Hx Hnd].
  destruct i as [|i]; simpl in *.
  - simplify_eq. rewrite filter_cons_False by tauto.
    symmetry. by apply without_absent.
  - rewrite filter_cons_True.
    + f_equal. by apply IH.
    + intros Heq. apply Hx. rewrite Heq. apply list_elem_of_fmap.
      exists it. split; [done|]. by eapply list_elem_of_lookup_2.
Qed.

(** ** The methods, in terms of what the cache holds *)

Lemma same_config_cap c c' l l' :
  same_config c c' → Repr c l → wf c' l' → length l' ≤ length l → Repr c' l'.
Proof.
  intros (Hcap & _) (_ & Hlen & Hpos) Hwf Hl. split; [done|]. rewrite Hcap. lia.
Qed.

Lemma Repr_Get_hit c l k e :
  Repr c l → hash c !! k = Some e →
  ∃ i it c', l !! i = Some e ∧ contents c !! i = Some it ∧ ikey it = k ∧
    Get k c = Some (ival it, c') ∧ Repr c' (e :: delete i l) ∧
    same_config c c' ∧ hash c' = hash c ∧ head c' = Some e ∧
    same_payload c c' ∧
    contents c' = it :: without k (contents c).
Proof.
  intros HR Hk. pose proof HR as (Hwf & Hlen & Hpos).
  destruct (wf_Get c l k e Hwf Hk)
    as (i & en & c' & Hi & Hen & Hkey & HGet & Hwf' & Hcf & Hh & Hsp & Hhd).
  pose proof (cells_exist c l Hwf) as Hal.
  destruct (cells_lookup _ _ _ _ _ Hal Hi) as (it & Hit & Hp).
  rewrite Hen in Hp. simpl in Hp. simplify_eq.
  exists i, (payload en), c'. repeat (split; [done|]).
  split; [|split; [done|split; [done|split; [done|split; [done|]]]]].
  - eapply same_config_cap; [done..|]. simpl. rewrite length_delete by eauto.
    apply lookup_lt_Some in Hi. lia.
  - rewrite <- (without_delete _ i (payload en)); [|exact (cells_keys_NoDup c l _ Hwf Hal)|done].
    apply (cells_contents _ _ _ Hwf'). constructor.
    + by rewrite Hsp, Hen.
    + apply Forall2_delete. eapply cells_impl; [done|]. intros p _. apply Hsp.
Qed.

Lemma Repr_Put_hit now c l k v e :
  Repr c l → hash c !! k = Some e →
  ∃ i it c', l !! i = Some e ∧ contents c !! i = Some it ∧ ikey it = k ∧
    Put now k v c = Some c' ∧ Repr c' (e :: delete i l) ∧
    same_config c c' ∧ hash c' = hash c ∧ head c' = Some e ∧
    contents c' = (k, v, expiry now (ttlSeconds c) (iexp it)) :: without k (contents c).
Proof.
  intros HR Hk. pose proof HR as (Hwf & Hlen & Hpos).
  destruct (wf_Put_hit now c l k v e Hwf Hk)
    as (i & en & c' & Hi & Hen & Hkey & HPut & Hwf' & Hcf & Hh & Hhd & Hcells).
  pose proof (cells_exist c l Hwf) as Hal.
  destruct (cells_lookup _ _ _ _ _ Hal Hi) as (it & Hit & Hp).
  rewrite Hen in Hp. simpl in Hp. simplify_eq.
  exists i, (payload en), c'. repeat (split; [done|]).
  split; [|split; [done|split; [done|split; [done|]]]].
  - eapply same_config_cap; [done..|]. simpl. rewrite length_delete by eauto.
    apply lookup_lt_Some in Hi. lia.
  - rewrite <- (without_delete _ i (payload en)); [|exact (cells_keys_NoDup c l _ Hwf Hal)|done].
    apply (cells_contents _ _ _ Hwf'). constructor.
    + by rewrite Hcells, decide_True.
    + eapply cells_impl; [by apply Forall2_delete|].
      intros p Hp. rewrite Hcells, decide_False; [done|].
      apply (elem_of_delete_NoDup l i e p) in Hp; [by destruct Hp|apply Hwf|done].
Qed.

Lemma Repr_Put_miss now c l k v :
  Repr c l → hash c !! k = None →
  ∃ c' l', Put now k v c = Some c' ∧ Repr c' l' ∧ same_config c c' ∧
    let new := (k, v, expiry now (ttlSeconds c) 0) in
    ((Z.of_nat (length (contents c)) < capacity c)%Z →
       contents c' = new :: contents c) ∧
    (Z.of_nat (length (contents c)) = capacity c →
       ∃ rest victim, contents c = rest ++ [victim] ∧ contents c' = new :: rest).
Proof.
  intros HR Hk. pose proof HR as (Hwf & Hlen & Hpos).
  destruct (wf_Put_miss now c l k v Hwf Hk)
    as (e & c' & He & Hel & HPut & Hwf' & Hcf & Hcells).
  pose proof (cells_exist c l Hwf) as Hal.
  pose proof (Forall2_length _ _ _ Hal) as Hlenal.
  assert (cells c' (e :: l) ((k, v, expiry now (ttlSeconds c) 0) :: contents c)) as Hal'.
  { constructor; [by rewrite Hcells, decide_True|].
    eapply cells_impl; [done|]. intros p Hp.
    rewrite Hcells, decide_False; [done|]. by intros ->. }
  destruct (capacity c <? Z.of_nat (S (length l)))%Z eqn:Hfull.
  - apply Z.ltb_lt in Hfull.
    destruct (decide (l = [])) as [->|Hne]; [simpl in *; lia|].
    apply last_is_Some in Hne as [t Ht]. apply last_Some in Ht as [l0 ->].
    apply Forall2_app_inv_l in Hal as (rest & vs & Hrest & Hvs & Heq).
    inversion Hvs as [|? victim ? ? Hvic Hnil]; subst. inversion Hnil; subst.
    rewrite length_app in *. simpl in *.
    replace (length l0 + 1) with (S (length l0)) in Hwf' by lia.
    simpl in Hwf'. rewrite <- (Nat.add_0_r (length l0)) in Hwf' at 1.
    replace (length l0 + 0) with (length l0) in Hwf' by lia.
    rewrite delete_middle, app_nil_r in Hwf'.
    exists c', (e :: l0). split; [done|]. split; [|split; [done|]].
    + eapply same_config_cap; [done..|]. simpl. rewrite length_app. simpl. lia.
    + rewrite Heq in *. split; [rewrite length_app in *; simpl in *; lia|].
      intros _. exists rest, victim. split; [done|].
      apply (cells_contents _ _ _ Hwf'). inversion Hal' as [|? ? ? ? Hnew Hold]; subst.
      constructor; [done|]. by apply Forall2_app_inv in Hold as [? _]; [|eapply Forall2_length].
  - apply Z.ltb_ge in Hfull.
    exists c', (e :: l). split; [done|]. split; [|split; [done|]].
    + destruct Hcf as (Hcap & _). split; [done|]. rewrite Hcap. simpl. split; lia.
    + split; [|lia]. intros _. by apply (cells_contents _ _ _ Hwf').
Qed.

Lemma Repr_Remove c l k e :
  Repr c l → hash c !! k = Some e →
  ∃ i it c', l !! i = Some e ∧ contents c !! i = Some it ∧ ikey it = k ∧
    Remove k c = Some (ival it, c') ∧ Repr c' (delete i l) ∧
    same_config c c' ∧ hash c' = delete k (hash c) ∧ same_payload c c' ∧
    contents c' = without k (contents c).
Proof.
  intros HR Hk. pose proof HR as (Hwf & Hlen & Hpos).
  destruct (wf_Remove c l k e Hwf Hk)
    as (i & en & c' & Hi & Hen & Hkey & HRem & Hwf' & Hcf & Hh & Hsp).
  pose proof (cells_exist c l Hwf) as Hal.
  destruct (cells_lookup _ _ _ _ _ Hal Hi) as (it & Hit & Hp).
  rewrite Hen in Hp. simpl in Hp. simplify_eq.
  exists i, (payload en), c'. repeat (split; [done|]).
  split; [|split; [done|split; [done|split; [done|]]]].
  - eapply same_config_cap; [done..|]. rewrite length_delete by eauto. lia.
  - rewrite <- (without_delete _ i (payload en));
      [|exact (cells_keys_NoDup c l _ Hwf Hal)|done].
    apply (cells_contents _ _ _ Hwf').
    apply Forall2_delete. eapply cells_impl; [done|]. intros p _. apply Hsp.
Qed.

Lemma Repr_Clear c l : Repr c l → Repr (Clear c) [] ∧ contents (Clear c) = [].
Proof.
  intros (Hwf & Hlen & Hpos). pose proof (wf_Clear c l Hwf) as Hwf'. split.
  - split; [done|]. simpl. lia.
  - apply (cells_contents _ _ _ Hwf'). constructor.
Qed.

Lemma Repr_Stop c l : Repr c l → Repr (Stop c) l ∧ contents (Stop c) = contents c.
Proof.
  intros (Hwf & Hlen & Hpos). split; [split; [by apply wf_Stop|done]|done].
Qed.

Lemma Repr_tick now c l :
  Repr c l → stopped c = false →
  ∃ c', tick now c = Some (c', false) ∧
    Repr c' (filter (λ p, live (heap c) now p) l) ∧
    same_config c c' ∧ same_payload c c' ∧
    contents c' = filter (λ it, ¬ (iexp it ≤ now)%Z) (contents c).
Proof.
  intros HR Hst. pose proof HR as (Hwf & Hlen & Hpos).
  destruct (wf_tick now c l Hwf Hst) as (c' & Htick & Hwf' & Hcf & Hsp).
  pose proof (cells_exist c l Hwf) as Hal.
  exists c'. split; [done|]. split; [|split; [done|split; [done|]]].
  - eapply same_config_cap; [done..|]. apply length_filter.
  - apply (cells_contents _ _ _ Hwf').
    eapply cells_impl; [|intros p _; apply Hsp].
    eapply Forall2_filter; [|exact Hal].
    intros p it (en & Hen & _ & _ & Hexp)%payload_Some. simpl.
    unfold live. rewrite Hen, <- Hexp.
    destruct (expireTime en <=? now)%Z eqn:Hle; simpl.
    + apply Z.leb_le in Hle. tauto.
    + apply Z.leb_gt in Hle. split; [lia|done].
Qed.

Lemma Repr_tick_stopped now c : stopped c = true → tick now c = Some (c, true).
Proof. unfold tick. by intros ->. Qed.

(** ** Traces *)

Lemma run_snoc tr ev s : run (tr ++ [ev]) s = s' ← run tr s; step ev s'.
Proof.
  revert s. induction tr as [|ev' tr IH]; intros s; simpl.
  - by destruct (step ev s).
  - destruct (step ev' s) as [s1|]; simpl; [apply IH|done].
Qed.

Lemma last_put_snoc tr ev k :
  last_put (tr ++ [ev]) k =
    match puts ev k with Some v => Some v | None => last_put tr k end.
Proof.
  induction tr as [|ev' tr IH]; simpl.
  - by destruct (puts ev k).
  - rewrite IH. destruct (puts ev k); [done|]. by destruct (last_put tr k).
Qed.

Lemma last_touch_snoc tr ev k :
  last_touch (tr ++ [ev]) k =
    if touches ev k then S (length tr) else last_touch tr k.
Proof.
  induction tr as [|ev' tr IH]; simpl.
  - by destruct (touches ev k).
  - rewrite IH. destruct (touches ev k); [done|]. by destruct (last_touch tr k).
Qed.

Lemma last_touch_le tr k : last_touch tr k ≤ length tr.
Proof.
  induction tr as [|ev tr IH]; simpl; [done|].
  destruct (last_touch tr k); [destruct (touches ev k)|]; lia.
Qed.

Lemma puts_touches ev k v : puts ev k = Some v → touches ev k = true.
Proof. destruct ev; simpl; try done. by case_bool_decide. Qed.

Lemma values_ok_shape tr ev al al' :
  values_ok tr al → shape ev al al' → values_ok (tr ++ [ev]) al'.
Proof.
  intros Hv Hsh it Hit. rewrite last_put_snoc.
  assert (∀ x, x ∈ al → touches ev (ikey x) = false →
    match puts ev (ikey x) with Some v => Some v | None => last_put tr (ikey x) end
    = Some (ival x)) as Hold.
  { intros x Hx Ht. destruct (puts ev (ikey x)) as [v|] eqn:Hp; [|by apply Hv].
    apply puts_touches in Hp. congruence. }
  destruct Hsh as [[Hsub Hnt]|(hd & rest & -> & Hsub & Ht & Hnt & Hhd)].
  - apply Hold; [|by apply Hnt]. by eapply sublist_subseteq.
  - apply elem_of_cons in Hit as [->|Hit].
    + destruct (puts ev (ikey hd)); [by subst|by apply Hv].
    + apply Hold; [|by apply Hnt]. by eapply sublist_subseteq.
Qed.

Lemma StronglySorted_sublist {A} (R : relation A) (l1 l2 : list A) :
  l1 `sublist_of` l2 → StronglySorted R l2 → StronglySorted R l1.
Proof.
  induction 1 as [|x l1 l2 Hsub IH|x l1 l2 Hsub IH]; intros Hs; [done|..].
  - apply StronglySorted_cons in Hs as [Hall Hs].
    apply StronglySorted_cons. split; [|by apply IH].
    eapply Forall_forall. intros y Hy. eapply Forall_forall in Hall; [done|].
    by eapply sublist_subseteq.
  - apply StronglySorted_cons in Hs as [_ Hs]. by apply IH.
Qed.

Lemma StronglySorted_impl_elem {A} (R R' : relation A) (l : list A) :
  (∀ x y, x ∈ l → y ∈ l → R x y → R' x y) →
  StronglySorted R l → StronglySorted R' l.
Proof.
  intros HR Hs. induction Hs as [|x l Hs IH Hall]; constructor.
  - apply IH. intros y z Hy Hz. apply HR; by right.
  - apply Forall_forall. intros y Hy. apply HR; [by left|by right|].
    by eapply Forall_forall in Hall.
Qed.

Lemma recent_shape tr ev al al' :
  recent tr al → shape ev al al' → recent (tr ++ [ev]) al'.
Proof.
  intros [Hs Hpos] Hsh.
  assert (∀ rest, rest `sublist_of` al →
    (∀ x, x ∈ rest → touches ev (ikey x) = false) →
    recent (tr ++ [ev]) rest) as Hold.
  { intros rest Hsub Hnt. split.
    - eapply StronglySorted_impl_elem; [|by eapply StronglySorted_sublist].
      intros x y Hx Hy. simpl. by rewrite !last_touch_snoc, !Hnt.
    - apply Forall_forall. intros x Hx. rewrite last_touch_snoc, Hnt by done.
      eapply Forall_forall in Hpos; [done|]. by eapply sublist_subseteq. }
  destruct Hsh as [[Hsub Hnt]|(hd & rest & -> & Hsub & Ht & Hnt & Hhd)].
  - by apply Hold.
  - destruct (Hold rest Hsub Hnt) as [Hs' Hpos']. split.
    + constructor; [done|]. apply Forall_forall. intros y Hy.
      rewrite !last_touch_snoc, Ht, Hnt by done.
      pose proof (last_touch_le tr (ikey y)). lia.
    + constructor; [|done]. rewrite last_touch_snoc, Ht. lia.
Qed.

Lemma shape_same ev al :
  (∀ x, x ∈ al → touches ev (ikey x) = false) → shape ev al al.
Proof. intros Hnt. left. done. Qed.

Lemma shape_sub ev al al' :
  al' `sublist_of` al → (∀ k, touches ev k = false) → shape ev al al'.
Proof. intros Hsub Hnt. left. split; [done|]. intros x _. apply Hnt. Qed.

Lemma touches_without ev k al x :
  (∀ k', touches ev k' = true → k' = k) → x ∈ without k al →
  touches ev (ikey x) = false.
Proof.
  intros Hev [Hx _]%list_elem_of_filter.
  destruct (touches ev (ikey x)) eqn:Ht; [|done]. by apply Hev in Ht.
Qed.

Lemma without_sublist k al : without k al `sublist_of` al.
Proof. apply sublist_filter. Qed.

(** One event from a well-formed cache: no panic, a well-formed cache
    again, the same configuration, and contents of the expected shape. *)
Lemma step_Inv ev s :
  Inv (cache s) →
  ∃ s', step ev s = Some s' ∧ Inv (cache s') ∧
    capacity (cache s') = capacity (cache s) ∧
    ttlSeconds (cache s') = ttlSeconds (cache s) ∧
    (stopped (cache s) = true → stopped (cache s') = true) ∧
    shape ev (contents (cache s)) (contents (cache s')).
Proof.
  intros [l HR]. pose proof HR as (Hwf & Hlen & Hpos).
  pose proof (cells_exist _ _ Hwf) as Hal.
  destruct ev as [k|now k v|k| | |now]; simpl.
  - destruct (hash (cache s) !! k) as [e|] eqn:Hk.
    + destruct (Repr_Get_hit _ _ _ _ HR Hk)
        as (i & it & c' & Hi & Hit & Hkey & HGet & HR' & (Hcap & Httl & Hst) & _ & _ & _ & Hc).
      rewrite HGet. simpl. eexists. split; [done|]. simpl.
      split; [by eexists|]. repeat (split; [congruence|]).
      right. exists it, (without k (contents (cache s))).
      split; [done|]. split; [apply without_sublist|].
      split; [simpl; by rewrite Hkey, bool_decide_true|].
      split; [|simpl; by eapply list_elem_of_lookup_2].
      intros x Hx. eapply touches_without; [|done].
      simpl. intros k'. by case_bool_decide.
    + unfold Get. rewrite Hk. simpl. eexists. split; [done|]. simpl.
      split; [by eexists|]. repeat (split; [done|]).
      apply shape_same. intros x Hx. simpl. apply bool_decide_eq_false.
      intros ->. apply (cells_hash_None _ _ _ (ikey x) Hwf Hal) in Hk.
      apply Hk. by apply list_elem_of_fmap_2.
  - destruct (hash (cache s) !! k) as [e|] eqn:Hk.
    + destruct (Repr_Put_hit now _ _ _ v _ HR Hk)
        as (i & it & c' & Hi & Hit & Hkey & HPut & HR' & (Hcap & Httl & Hst) & _ & _ & Hc).
      rewrite HPut. simpl. eexists. split; [done|]. simpl.
      split; [by eexists|]. repeat (split; [congruence|]).
      right. eexists _, (without k (contents (cache s))).
      split; [done|]. split; [apply without_sublist|].
      split; [simpl; by rewrite bool_decide_true|].
      split; [|simpl; by rewrite bool_decide_true].
      intros x Hx. eapply touches_without; [|done].
      simpl. intros k'. by case_bool_decide.
    + destruct (Repr_Put_miss now _ _ _ v HR Hk)
        as (c' & l' & HPut & HR' & (Hcap & Httl & Hst) & Hroom & Hfull).
      rewrite HPut. simpl. eexists. split; [done|]. simpl.
      split; [by eexists|]. repeat (split; [congruence|]).
      assert (∀ x, x ∈ contents (cache s) → touches (EPut now k v) (ikey x) = false) as Hnt.
      { intros x Hx. simpl. apply bool_decide_eq_false.
        intros ->. apply (cells_hash_None _ _ _ (ikey x) Hwf Hal) in Hk.
        apply Hk. by apply list_elem_of_fmap_2. }
      pose proof (Forall2_length _ _ _ Hal) as Hlenal.
      right. destruct (decide (Z.of_nat (length (contents (cache s))) = capacity (cache s)))
        as [Heq|Hne].
      * destruct (Hfull Heq) as (rest & victim & Hrest & Hc).
        eexists _, rest. split; [done|].
        split; [rewrite Hrest; by apply sublist_inserts_r|].
        split; [simpl; by rewrite bool_decide_true|].
        split; [|simpl; by rewrite bool_decide_true].
        intros x Hx. apply Hnt. rewrite Hrest. apply elem_of_app. by left.
      * rewrite Hroom by lia. eexists _, _. split; [done|]. split; [done|].
        split; [simpl; by rewrite bool_decide_true|].
        split; [done|simpl; by rewrite bool_decide_true].
  - destruct (hash (cache s) !! k) as [e|] eqn:Hk.
    + destruct (Repr_Remove _ _ _ _ HR Hk)
        as (i & it & c' & Hi & Hit & Hkey & HRem & HR' & (Hcap & Httl & Hst) & _ & _ & Hc).
      rewrite HRem. simpl. eexists. split; [done|]. simpl.
      split; [by eexists|]. repeat (split; [congruence|]).
      rewrite Hc. by apply shape_sub; [apply without_sublist|].
    + unfold Remove. rewrite Hk. simpl. eexists. split; [done|]. simpl.
      split; [by eexists|]. repeat (split; [done|]). by apply shape_same.
  - destruct (Repr_Clear _ _ HR) as [HR' Hc].
    eexists. split; [done|]. simpl. split; [by eexists|]. repeat (split; [done|]).
    rewrite Hc. by apply shape_sub; [apply sublist_nil_l|].
  - destruct (Repr_Stop _ _ HR) as [HR' Hc].
    eexists. split; [done|]. simpl. split; [by eexists|]. repeat (split; [done|]).
    by apply shape_same.
  - unfold pruneExpiredEntries. destruct (sweeper s).
    + destruct (_ || _); (eexists; split; [done|]); simpl; (split; [by eexists|]);
        repeat (split; [done|]); by apply shape_same.
    + destruct (stopped (cache s)) eqn:Hst.
      * rewrite Repr_tick_stopped by done. simpl.
        eexists; split; [done|]; simpl; (split; [by eexists|]).
        repeat (split; [done|]). by apply shape_same.
      * destruct (Repr_tick now _ _ HR Hst)
          as (c' & Htick & HR' & (Hcap & Httl & Hst') & _ & Hc).
        rewrite Htick. simpl. eexists; split; [done|]; simpl; (split; [by eexists|]).
        repeat (split; [congruence|]). rewrite Hc.
        by apply shape_sub; [apply sublist_filter|].
    + eexists; split; [done|]. split; [by eexists|]. repeat (split; [done|]).
      by apply shape_same.
Qed.

Lemma initial_Inv s :
  initial s → Inv (cache s) ∧ contents (cache s) = [] ∧ stopped (cache s) = false.
Proof.
  assert (∀ cap ttl, (0 < cap)%Z →
    wf (Cache cap ttl false None None (∅ : gmap K loc) (∅ : gmap loc (entry K V))) []) as Hwf.
  { intros cap ttl Hcap. split; [split|..]; simpl; try done.
    - constructor.
    - intros k p. simpl. rewrite lookup_empty. split; [done|]. by intros [?%elem_of_nil _]. }
  intros [(cap & Hs)|(cap & ttl & Hs)];
    unfold sys_New, sys_NewWithTTL, New, NewWithTTL in Hs.
  - destruct (cap <=? 0)%Z eqn:Hcap; simpl in Hs; [done|].
    apply Z.leb_gt in Hcap. simplify_eq/=.
    split; [|by split]. exists []. split; [by apply Hwf|simpl; lia].
  - destruct (cap <=? 0)%Z eqn:Hcap; simpl in Hs; [done|].
    apply Z.leb_gt in Hcap. destruct (ttl <? 0)%Z; simplify_eq/=.
    split; [|by split]. exists []. split; [by apply Hwf|simpl; lia].
Qed.

(** No trace makes a constructed cache panic, and the invariants hold all
    along. *)
Lemma run_Inv tr s0 :
  initial s0 →
  ∃ s, run tr s0 = Some s ∧ Inv (cache s) ∧
    values_ok tr (contents (cache s)) ∧ recent tr (contents (cache s)).
Proof.
  intros Hinit. induction tr as [|ev tr IH] using rev_ind.
  - exists s0. destruct (initial_Inv s0 Hinit) as (HI & -> & _).
    split; [done|]. split; [done|]. split; [by intros it ?%elem_of_nil|].
    split; constructor.
  - destruct IH as (s & Hrun & HI & Hv & Hr).
    destruct (step_Inv ev s HI) as (s' & Hstep & HI' & _ & _ & _ & Hsh).
    exists s'. rewrite run_snoc, Hrun. simpl. split; [done|]. split; [done|].
    split; [by eapply values_ok_shape|by eapply recent_shape].
Qed.

Lemma reachable_Inv tr s0 s : initial s0 → run tr s0 = Some s → Inv (cache s).
Proof.
  intros Hinit Hrun. destruct (run_Inv tr s0 Hinit) as (s' & Hrun' & HI & _).
  congruence.
Qed.

Lemma Repr_entries c l : Repr c l → entries c = l.
Proof. intros [Hwf _]. apply is_list_entries, Hwf. Qed.

Lemma Repr_Size c l : Repr c l → Size c = length l.
Proof. intros [Hwf _]. apply Hwf. Qed.

Lemma Repr_contents_length c l : Repr c l → length (contents c) = length l.
Proof.
  intros [Hwf _]. symmetry. eapply Forall2_length, cells_exist, Hwf.
Qed.

Lemma Inv_structural c : Inv c → structural c.
Proof.
  intros [l HR]. pose proof HR as (Hwf & Hlen & Hpos).
  pose proof Hwf as [[Hnd Hhd Htl Hlk] Hix Hsz].
  unfold structural. rewrite (Repr_entries c l HR). unfold Size.
  split; [done|]. split; [|split; [|split; [done|split; [done|split; [lia|]]]]].
  - intros p [i Hi]%list_elem_of_lookup. by eapply wf_cell.
  - intros k p Hk. by apply Hix in Hk as [? _].
  - intros Hne.
    destruct (l !! 0) as [h|] eqn:Hh; [|by destruct l].
    destruct (last l) as [t|] eqn:Ht; [|apply last_None in Ht; congruence].
    exists h, t. split; [congruence|]. split; [done|].
    split; [by eapply list_elem_of_lookup_2|].
    rewrite last_lookup in Ht.
    split; [by eapply list_elem_of_lookup_2|].
    intros p en [i Hi]%list_elem_of_lookup Hen.
    destruct (Hlk i p Hi) as (en' & Hen' & Hpv & Hnx). simplify_eq.
    pose proof (lookup_lt_Some _ _ _ Hi) as Hlt. split.
    + rewrite Hpv. destruct i as [|i]; simpl.
      * split; [intros _; congruence|done].
      * split.
        -- intros Hn. apply lookup_ge_None in Hn. lia.
        -- intros ->. pose proof (NoDup_lookup _ _ _ _ Hnd Hi Hh). lia.
    + rewrite Hnx. split.
      * intros Hn. apply lookup_ge_None in Hn.
        replace (pred (length l)) with i in Ht by lia. congruence.
      * intros ->. pose proof (NoDup_lookup _ _ _ _ Hnd Hi Ht) as ->.
        apply lookup_ge_None. lia.
Qed.

Lemma delete_filter_NoDup {A} `{EqDecision A} (l : list A) i x :
  NoDup l → l !! i = Some x → delete i l = filter (λ y, y ≠ x) l.
Proof.
  revert i. induction l as [|y l IH]; intros i Hnd Hi; [done|].
  apply NoDup_cons in Hnd as [Hy Hnd]. destruct i as [|i]; simpl in *.
  - simplify_eq. rewrite filter_cons_False by tauto.
    symmetry. clear IH. induction l as [|z l IH]; [done|].
    apply not_elem_of_cons in Hy as [Hz Hy]. apply NoDup_cons in Hnd as [_ Hnd].
    rewrite filter_cons_True by done. f_equal. by apply IH.
  - rewrite filter_cons_True; [f_equal; by apply IH|].
    intros ->. apply Hy. by eapply list_elem_of_lookup_2.
Qed.

Lemma step_sweeper_Gone ev s s' :
  sweeper s = Gone → step ev s = Some s' → sweeper s' = Gone.
Proof.
  intros Hg. destruct ev; simpl; unfold pruneExpiredEntries; rewrite ?Hg;
    intros Hs; simplify_option_eq; done.
Qed.

Lemma run_sweeper_Gone tr s s' :
  sweeper s = Gone → run tr s = Some s' → sweeper s' = Gone.
Proof.
  revert s. induction tr as [|ev tr IH]; intros s Hg; simpl; [congruence|].
  destruct (step ev s) as [s1|] eqn:Hs; [|done]. simpl.
  apply IH. by eapply step_sweeper_Gone.
Qed.

Lemma run_stopped tr s :
  Inv (cache s) → stopped (cache s) = true →
  ∃ s', run tr s = Some s' ∧ Inv (cache s') ∧ stopped (cache s') = true.
Proof.
  revert s. induction tr as [|ev tr IH]; intros s HI Hst; simpl; [by eauto|].
  destruct (step_Inv ev s HI) as (s1 & -> & HI1 & _ & _ & Hst1 & _). simpl.
  apply IH; auto.
Qed.

Lemma sweeper_after_Stop now s :
  stopped (cache s) = true →
  ∃ s', step (ESweeper now) s = Some s' ∧ cache s' = cache s ∧ sweeper s' = Gone.
Proof.
  intros Hst. simpl. unfold pruneExpiredEntries, tick. rewrite Hst.
  destruct (sweeper s) eqn:Hsw; simpl.
  - rewrite orb_true_r. eauto.
  - eauto.
  - exists s. by rewrite Hsw.
Qed.

(** * The claims *)

(** C8.  For a key absent from the index, [Get] and [Remove] answer the
    absent result ([nil], not a panic) and return the cache as it was, so
    [Size] in particular is unchanged. *)
Theorem absent_key_unchanged c k :
  hash c !! k = None →
  Get k c = Some (None, c) ∧ Remove k c = Some (None, c) ∧
  ∀ r c', Get k c = Some (r, c') ∨ Remove k c = Some (r, c') →
    r = None ∧ c' = c ∧ Size c' = Size c.
Proof.
  intros Hk. unfold Get, Remove. rewrite Hk. split; [done|]. split; [done|].
  intros r c' [Hr|Hr]; by simplify_eq.
Qed.

(** C9.  [New] panics exactly when the capacity is not positive, and
    [NewWithTTL] exactly when the capacity is not positive or the TTL is
    negative; otherwise each returns an empty cache with the capacity and
    the TTL asked for ([New]: TTL 0, that is disabled). *)
Theorem constructors_validate capacity ttlSeconds :
  (New (K:=K) (V:=V) capacity = None ↔ (capacity ≤ 0)%Z) ∧
  (NewWithTTL (K:=K) (V:=V) capacity ttlSeconds = None ↔
     (capacity ≤ 0)%Z ∨ (ttlSeconds < 0)%Z) ∧
  (∀ c, New capacity = Some c →
     Capacity c = capacity ∧ TTLSeconds c = 0%Z ∧ stopped c = false ∧
     hash c = ∅ ∧ head c = None ∧ tail c = None ∧
     Size c = 0 ∧ entries c = [] ∧ Inv c) ∧
  (∀ c, NewWithTTL capacity ttlSeconds = Some c →
     Capacity c = capacity ∧ TTLSeconds c = ttlSeconds ∧ stopped c = false ∧
     hash c = ∅ ∧ head c = None ∧ tail c = None ∧
     Size c = 0 ∧ entries c = [] ∧ Inv c).
Proof.
  unfold New, NewWithTTL.
  destruct (capacity <=? 0)%Z eqn:Hcap;
    [apply Z.leb_le in Hcap|apply Z.leb_gt in Hcap].
  { split; [done|]. split; [by split; [left|]|]. by split. }
  destruct (ttlSeconds <? 0)%Z eqn:Httl;
    [apply Z.ltb_lt in Httl|apply Z.ltb_ge in Httl].
  - split; [split; [done|lia]|]. split; [by split; [right|]|].
    split; [|done]. intros c [= <-]. repeat (split; [done|]).
    apply (initial_Inv (System _ Gone)). left. exists capacity.
    unfold sys_New, New. apply Z.leb_gt in Hcap. by rewrite Hcap.
  - split; [split; [done|lia]|]. split; [split; [done|lia]|].
    split; intros c [= <-]; repeat (split; [done|]).
    + apply (initial_Inv (System _ Gone)). left. exists capacity.
      unfold sys_New, New. apply Z.leb_gt in Hcap. by rewrite Hcap.
    + apply (initial_Inv (System _ Starting)). right. exists capacity, ttlSeconds.
      unfold sys_NewWithTTL, NewWithTTL. apply Z.leb_gt in Hcap. rewrite Hcap.
      apply Z.ltb_ge in Httl. by rewrite Httl.
Qed.

(** C1, amended.  [Get] does not look at [expireTime]: for a key whose
    entry has expired it still returns the stored value, moves the entry
    to the head and keeps it in the list and in the index, so [Size] is
    what it was. *)
Theorem Get_ignores_expiry now c k e en :
  Inv c → (0 < ttlSeconds c)%Z →
  hash c !! k = Some e → heap c !! e = Some en → (expireTime en ≤ now)%Z →
  ∃ c', Get k c = Some (value en, c') ∧
    head c' = Some e ∧ hash c' = hash c ∧ Size c' = Size c ∧
    contents c' = payload en :: without k (contents c) ∧ Inv c'.
Proof.
  intros [l HR] _ Hk Hen _.
  destruct (Repr_Get_hit c l k e HR Hk)
    as (i & it & c' & Hi & Hit & Hkey & HGet & HR' & Hcf & Hh & Hhd & Hsp & Hc).
  destruct (cells_lookup _ _ _ _ _ (cells_exist _ _ (proj1 HR)) Hi) as (it' & Hit' & Hp).
  rewrite Hen in Hp. simpl in Hp. simplify_eq.
  exists c'. split; [done|]. split; [done|]. split; [done|].
  split; [unfold Size; by rewrite Hh|]. split; [done|by eexists].
Qed.

(** C10.  [Put] of a key already in the index overwrites the value of its
    entry, renews its [expireTime] when TTL is enabled, and moves it to the
    head; the index, [Size] and every other entry stay as they were. *)
Theorem Put_existing_key now c k v e en :
  Inv c → hash c !! k = Some e → heap c !! e = Some en →
  ∃ c', Put now k v c = Some c' ∧
    head c' = Some e ∧ hash c' = hash c ∧ Size c' = Size c ∧
    contents c' =
      (k, v, if (0 <? ttlSeconds c)%Z then wrap64 (now + ttlSeconds c)
             else expireTime en)
      :: without k (contents c) ∧
    Inv c'.
Proof.
  intros [l HR] Hk Hen.
  destruct (Repr_Put_hit now c l k v e HR Hk)
    as (i & it & c' & Hi & Hit & Hkey & HPut & HR' & Hcf & Hh & Hhd & Hc).
  destruct (cells_lookup _ _ _ _ _ (cells_exist _ _ (proj1 HR)) Hi) as (it' & Hit' & Hp).
  rewrite Hen in Hp. simpl in Hp. simplify_eq.
  exists c'. split; [done|]. split; [done|]. split; [done|].
  split; [unfold Size; by rewrite Hh|]. split; [done|by eexists].
Qed.

(** C6.  [Remove] of a key in the index unlinks its entry, deletes the key
    from the index and returns the value last put under the key.  Nothing
    in it reads [expireTime]: an expired entry is removed and its value
    returned all the same. *)
Theorem Remove_present_key tr s0 s k e en :
  initial s0 → run tr s0 = Some s →
  hash (cache s) !! k = Some e → heap (cache s) !! e = Some en →
  ∃ c', Remove k (cache s) = Some (value en, c') ∧
    last_put tr k = Some (value en) ∧
    entries c' = filter (λ p, p ≠ e) (entries (cache s)) ∧
    hash c' = delete k (hash (cache s)) ∧
    contents c' = without k (contents (cache s)) ∧
    S (Size c') = Size (cache s) ∧ Inv c'.
Proof.
  intros Hinit Hrun Hk Hen.
  destruct (run_Inv tr s0 Hinit) as (s' & Hrun' & [l HR] & Hv & _).
  assert (s' = s) as -> by congruence.
  destruct (Repr_Remove _ l k e HR Hk)
    as (i & it & c' & Hi & Hit & Hkey & HRem & HR' & Hcf & Hh & Hsp & Hc).
  destruct (cells_lookup _ _ _ _ _ (cells_exist _ _ (proj1 HR)) Hi) as (it' & Hit' & Hp).
  rewrite Hen in Hp. simpl in Hp. simplify_eq.
  exists c'. split; [done|]. split; [|split; [|split; [done|split; [done|split]]]].
  - apply (Hv (payload en)). by eapply list_elem_of_lookup_2.
  - rewrite (Repr_entries _ _ HR), (Repr_entries _ _ HR').
    apply delete_filter_NoDup; [apply HR|done].
  - rewrite (Repr_Size _ _ HR), (Repr_Size _ _ HR'), length_delete by eauto.
    apply lookup_lt_Some in Hi. lia.
  - by eexists.
Qed.

(** C7.  [Get] of a key in the index returns the value last put under the
    key and leaves its entry at the head; a second [Get] right after
    returns the same value and the very same cache.  This holds whether or
    not the entry has expired. *)
Theorem Get_present_twice tr s0 s k e :
  initial s0 → run tr s0 = Some s → hash (cache s) !! k = Some e →
  ∃ v t c1, Get k (cache s) = Some (v, c1) ∧
    last_put tr k = Some v ∧
    (k, v, t) ∈ contents (cache s) ∧
    head c1 = Some e ∧
    contents c1 = (k, v, t) :: without k (contents (cache s)) ∧
    Get k c1 = Some (v, c1).
Proof.
  intros Hinit Hrun Hk.
  destruct (run_Inv tr s0 Hinit) as (s' & Hrun' & [l HR] & Hv & _).
  assert (s' = s) as -> by congruence.
  destruct (Repr_Get_hit _ l k e HR Hk)
    as (i & [[k' v] t] & c' & Hi & Hit & Hkey & HGet & HR' & Hcf & Hh & Hhd & Hsp & Hc).
  unfold ikey in Hkey. simpl in *. subst k'.
  exists v, t, c'. split; [done|].
  assert ((k, v, t) ∈ contents (cache s)) as Hel by (by eapply list_elem_of_lookup_2).
  split; [by apply (Hv _ Hel)|]. split; [done|]. split; [done|]. split; [done|].
  unfold Get, promote. rewrite Hh, Hk, Hhd, decide_True by done. simpl.
  destruct (cells_lookup _ _ _ _ _ (cells_exist _ _ (proj1 HR)) Hi) as (it' & Hit' & Hp).
  simplify_eq. rewrite <- Hsp in Hp.
  apply payload_Some in Hp as (en' & -> & _ & Hval & _). simpl. by rewrite Hval.
Qed.

(** C4.  With the [stopped] flag unset, one tick of the sweeper unlinks
    exactly the entries with [expireTime <= now] and deletes their keys
    from the index; the other entries stay, in the order they had. *)
Theorem tick_sweeps_expired now s :
  Inv (cache s) → sweeper s = Sleeping → stopped (cache s) = false →
  ∃ c', step (ESweeper now) s = Some (System c' Sleeping) ∧
    entries c' = filter (λ p, live (heap (cache s)) now p) (entries (cache s)) ∧
    contents c' = filter (λ it, ¬ (iexp it ≤ now)%Z) (contents (cache s)) ∧
    (∀ k p, hash c' !! k = Some p ↔
       hash (cache s) !! k = Some p ∧ live (heap (cache s)) now p) ∧
    Size c' = length (contents c') ∧ Inv c'.
Proof.
  intros [l HR] Hsw Hst.
  destruct (Repr_tick now _ l HR Hst) as (c' & Htick & HR' & Hcf & Hsp & Hc).
  exists c'. simpl. unfold pruneExpiredEntries. rewrite Hsw, Htick. simpl.
  split; [done|]. split; [by rewrite (Repr_entries _ _ HR), (Repr_entries _ _ HR')|].
  split; [done|]. split; [|split; [|by eexists]].
  - intros k p. pose proof (wf_index _ _ (proj1 HR') k p) as Hix'.
    pose proof (wf_index _ _ (proj1 HR) k p) as Hix. unfold indexed in *.
    rewrite Hix', Hix, list_elem_of_filter. split.
    + intros ((Hlive & Hp) & en' & Hen' & Hkey). split; [|done]. split; [done|].
      destruct (same_payload_key _ _ _ _ Hsp Hen') as (en & ? & ?%payload_key).
      exists en. split; congruence.
    + intros ((Hp & en & Hen & Hkey) & Hlive). split; [done|].
      destruct (same_payload_key _ _ p en (same_payload_sym _ _ Hsp) Hen)
        as (en' & ? & ?%payload_key).
      exists en'. split; congruence.
  - by rewrite (Repr_Size _ _ HR'), (Repr_contents_length _ _ HR').
Qed.

(** C3.  From a cache that satisfies the structural invariant, every
    event (a call of [Get], [Put], [Remove], [Clear] or [Stop], or the
    sweeper being scheduled) runs without panic and leaves a cache that
    satisfies it again: the list and the index hold the same entries, their
    number is [Size] and at most the capacity, and the head and the tail
    are the only entries without [prev] and without [next]. *)
Theorem structural_invariant_preserved ev s :
  Inv (cache s) →
  ∃ s', step ev s = Some s' ∧ Inv (cache s') ∧ structural (cache s').
Proof.
  intros HI. destruct (step_Inv ev s HI) as (s' & Hstep & HI' & _).
  exists s'. split; [done|]. split; [done|]. by apply Inv_structural.
Qed.

(** C5.  [Stop] sets the [stopped] flag and nothing else, and a second
    [Stop] changes nothing.  After it, whatever happens next, the flag
    stays set, and the sweeper, when it is scheduled, leaves the cache as
    it is and returns for good: no entry is ever swept again. *)
Theorem Stop_ends_sweeping s tr :
  Inv (cache s) →
  let c := cache s in
  stopped (Stop c) = true ∧ Stop (Stop c) = Stop c ∧
  (capacity (Stop c) = capacity c ∧ ttlSeconds (Stop c) = ttlSeconds c ∧
   head (Stop c) = head c ∧ tail (Stop c) = tail c ∧
   hash (Stop c) = hash c ∧ heap (Stop c) = heap c ∧
   contents (Stop c) = contents c ∧ Size (Stop c) = Size c) ∧
  ∃ s1 s2, step EStop s = Some s1 ∧ cache s1 = Stop c ∧
    run tr s1 = Some s2 ∧ stopped (cache s2) = true ∧
    ∀ now, ∃ s3, step (ESweeper now) s2 = Some s3 ∧
      cache s3 = cache s2 ∧ sweeper s3 = Gone ∧
      ∀ tr' s4, run tr' s3 = Some s4 → sweeper s4 = Gone.
Proof.
  intros HI c. split; [done|]. split; [done|]. split; [by repeat split|].
  destruct HI as [l HR]. destruct (Repr_Stop _ _ HR) as [HR1 _].
  destruct (run_stopped tr (System (Stop c) (sweeper s))) as (s2 & Hrun & HI2 & Hst2);
    [by eexists|done|].
  eexists _, s2. split; [done|]. split; [done|]. split; [done|]. split; [done|].
  intros now. destruct (sweeper_after_Stop now s2 Hst2) as (s3 & Hstep & Hc & Hg).
  exists s3. split; [done|]. split; [done|]. split; [done|].
  intros tr' s4. by apply run_sweeper_Gone.
Qed.

(** C2.  Every [Put] on a constructed cache runs without panic, leaves at
    most [capacity] entries and loses at most one entry other than the one
    it writes.  When the cache holds exactly [capacity] entries and the key
    is new, the entry at the tail is the one that goes, the new entry comes
    first and the others keep their order; and of all the entries present
    when it goes, the tail is the one whose last [Get] or [Put] is the
    oldest. *)
Theorem Put_evicts_least_recent tr s0 s now k v :
  initial s0 → run tr s0 = Some s →
  let c := cache s in
  ∃ c', Put now k v c = Some c' ∧ Inv c' ∧
    (Z.of_nat (Size c') ≤ capacity c')%Z ∧
    (∃ gone, length gone ≤ 1 ∧
       ∀ x, x ∈ contents c → ikey x ≠ k → x ∈ contents c' ∨ x ∈ gone) ∧
    (Z.of_nat (Size c) = capacity c → hash c !! k = None →
     ∃ rest victim t,
       contents c = rest ++ [victim] ∧
       tail c = Some t ∧ payload <$> heap c !! t = Some victim ∧
       contents c' = (k, v, expiry now (ttlSeconds c) 0) :: rest ∧
       Z.of_nat (Size c') = capacity c ∧
       ∀ x, x ∈ contents c' →
         last_touch (tr ++ [EPut now k v]) (ikey victim)
         < last_touch (tr ++ [EPut now k v]) (ikey x)).
Proof.
  intros Hinit Hrun c.
  destruct (run_Inv tr s0 Hinit) as (s' & Hrun' & [l HR] & _ & Hrec).
  assert (s' = s) as -> by congruence. fold c in HR, Hrec.
  pose proof HR as (Hwf & Hlen & Hpos).
  pose proof (cells_exist _ _ Hwf) as Hal.
  pose proof (Repr_contents_length _ _ HR) as Hlenc.
  pose proof (Repr_Size _ _ HR) as Hsz.
  destruct (hash c !! k) as [e|] eqn:Hk.
  - destruct (Repr_Put_hit now c l k v e HR Hk)
      as (i & it & c' & Hi & Hit & Hkey & HPut & HR' & Hcf & Hh & Hhd & Hc).
    exists c'. split; [done|]. split; [by eexists|].
    split; [rewrite (Repr_Size _ _ HR'); apply HR'|]. split; [|done].
    exists []. split; [simpl; lia|]. intros x Hx Hne. left.
    rewrite Hc. right. by apply list_elem_of_filter.
  - destruct (Repr_Put_miss now c l k v HR Hk)
      as (c' & l' & HPut & HR' & Hcf & Hroom & Hfull).
    exists c'. split; [done|]. split; [by eexists|].
    split; [rewrite (Repr_Size _ _ HR'); apply HR'|].
    destruct (decide (Z.of_nat (length (contents c)) = capacity c)) as [Heq|Hne].
    + destruct (Hfull Heq) as (rest & victim & Hrest & Hc). split.
      * exists [victim]. split; [done|]. intros x Hx _. rewrite Hc.
        rewrite Hrest in Hx. apply elem_of_app in Hx as [Hx|Hx]; [left; by right|by right].
      * intros _ _. 
        assert (length l = S (length rest)) as Hll.
        { rewrite <- Hlenc, Hrest, length_app. simpl. lia. }
        destruct (last l) as [t|] eqn:Ht;
          [|apply last_None in Ht; subst l; simpl in Hll; lia].
        exists rest, victim, t. split; [done|].
        split; [by rewrite (il_tail _ _ (wf_list _ _ Hwf))|].
        split; [|split; [done|split]].
        -- rewrite last_lookup in Ht.
           destruct (cells_lookup _ _ _ _ _ Hal Ht) as (it & Hit & Hp).
           rewrite Hp. f_equal. rewrite Hrest, Hll in Hit. simpl in Hit.
           rewrite list_lookup_middle in Hit by done. congruence.
        -- rewrite (Repr_Size _ _ HR'), <- (Repr_contents_length _ _ HR'), Hc.
           simpl. rewrite <- Heq, Hrest, length_app. simpl. lia.
        -- assert (∀ y, y ∈ contents c →
             last_touch (tr ++ [EPut now k v]) (ikey y) = last_touch tr (ikey y)) as Hold.
           { intros y Hy. rewrite last_touch_snoc. simpl.
             rewrite bool_decide_false; [done|]. intros ->.
             apply (cells_hash_None _ _ _ (ikey y) Hwf Hal) in Hk.
             apply Hk. by apply list_elem_of_fmap_2. }
           assert (victim ∈ contents c) as Hvic.
           { rewrite Hrest. apply elem_of_app. right. by left. }
           intros x Hx. rewrite (Hold victim Hvic).
           rewrite Hc in Hx. apply elem_of_cons in Hx as [->|Hx].
           ++ rewrite last_touch_snoc. simpl. rewrite bool_decide_true by done.
              pose proof (last_touch_le tr (ikey victim)). lia.
           ++ rewrite Hold by (rewrite Hrest; apply elem_of_app; by left).
              destruct Hrec as [Hs _]. rewrite Hrest in Hs.
              apply (StronglySorted_app_1_elem_of _ _ _ x victim Hs); [done|by left].
    + split.
      * exists []. split; [simpl; lia|]. intros x Hx _. left.
        rewrite Hroom by lia. by right.
      * intros Hfl. unfold Size in Hfl. rewrite (wf_size _ _ Hwf) in Hfl. lia.
Qed.

(** * Further properties *)

Lemma run_config tr : ∀ s s',
  Inv (cache s) → run tr s = Some s' →
  Inv (cache s') ∧ capacity (cache s') = capacity (cache s) ∧
  ttlSeconds (cache s') = ttlSeconds (cache s).
Proof.
  induction tr as [|ev tr IH]; intros s s' HI Hrun; simpl in Hrun.
  - by simplify_eq.
  - destruct (step_Inv ev s HI) as (s1 & Hstep & HI1 & Hcap & Httl & _).
    rewrite Hstep in Hrun. simpl in Hrun.
    destruct (IH s1 s' HI1 Hrun) as (? & ? & ?). repeat split; congruence.
Qed.

Lemma Repr_hash_elem c l it :
  Repr c l → it ∈ contents c →
  ∃ e i, hash c !! ikey it = Some e ∧ l !! i = Some e ∧ contents c !! i = Some it.
Proof.
  intros [Hwf _] [i Hi]%list_elem_of_lookup.
  pose proof (cells_exist c l Hwf) as Hal.
  destruct (cells_lookup_r _ _ _ _ _ Hal Hi) as (p & Hp & (en & Hen & Hkey & _)%payload_Some).
  exists p, i. split; [|done].
  apply (wf_index _ _ Hwf). split; [by eapply list_elem_of_lookup_2|eauto].
Qed.

(** The key of an entry of the cache is found, with the value of the entry. *)
Lemma Get_member c it :
  Inv c → it ∈ contents c →
  ∃ c', Get (ikey it) c = Some (ival it, c') ∧ Inv c' ∧
    contents c' = it :: without (ikey it) (contents c).
Proof.
  intros [l HR] Hit.
  destruct (Repr_hash_elem c l it HR Hit) as (e & i & He & Hi & Hci).
  destruct (Repr_Get_hit c l _ e HR He)
    as (j & it' & c' & Hj & Hcj & Hkey & HGet & HR' & _ & _ & _ & _ & Hc).
  pose proof (NoDup_lookup _ _ _ _ (il_nodup _ _ (wf_list _ _ (proj1 HR))) Hi Hj) as <-.
  assert (it' = it) as -> by congruence.
  exists c'. split; [done|]. split; [by eexists|done].
Qed.

(** The entry at the head is found without any change to the cache. *)
Lemma Get_head c it rest :
  Inv c → contents c = it :: rest → Get (ikey it) c = Some (ival it, c).
Proof.
  intros [l HR] Hc. pose proof HR as (Hwf & _).
  pose proof (cells_exist c l Hwf) as Hal. rewrite Hc in Hal.
  inversion Hal as [|e ? l0 ? He Hrest]; subst.
  apply payload_Some in He as (en & Hen & Hkey & Hval & _).
  assert (hash c !! ikey it = Some e) as Hk.
  { apply (wf_index _ _ Hwf). split; [by left|eauto]. }
  unfold Get, promote. rewrite Hk, (il_head _ _ (wf_list _ _ Hwf)). simpl.
  rewrite decide_True by done. simpl. rewrite Hen. simpl. by rewrite Hval.
Qed.

(** [Put] in terms of contents, both for a key in the index and for a new
    one. *)
Lemma Put_contents now c k v :
  Inv c →
  ∃ c' old rest, Put now k v c = Some c' ∧ Inv c' ∧ same_config c c' ∧
    contents c' = (k, v, expiry now (ttlSeconds c) old) :: rest ∧
    ((old = 0%Z ∧ hash c !! k = None) ∨
     (∃ y, y ∈ contents c ∧ ikey y = k ∧ iexp y = old)) ∧
    (rest = without k (contents c) ∨
     ∃ victim, without k (contents c) = rest ++ [victim] ∧
       hash c !! k = None ∧ Z.of_nat (length (contents c)) = capacity c).
Proof.
  intros [l HR]. pose proof HR as (Hwf & Hlen & Hpos).
  pose proof (cells_exist _ _ Hwf) as Hal.
  destruct (hash c !! k) as [e|] eqn:Hk.
  - destruct (Repr_Put_hit now c l k v e HR Hk)
      as (i & it & c' & Hi & Hit & Hkey & HPut & HR' & Hcf & _ & _ & Hc).
    exists c', (iexp it), (without k (contents c)).
    split; [done|]. split; [by eexists|]. split; [done|]. split; [done|].
    split; [|by left]. right. exists it. split; [|done].
    by eapply list_elem_of_lookup_2.
  - destruct (Repr_Put_miss now c l k v HR Hk)
      as (c' & l' & HPut & HR' & Hcf & Hroom & Hfull).
    assert (without k (contents c) = contents c) as Hw.
    { apply without_absent. by apply (cells_hash_None c l). }
    pose proof (Repr_contents_length _ _ HR) as Hlenc.
    destruct (decide (Z.of_nat (length (contents c)) = capacity c)) as [Heq|Hne].
    + destruct (Hfull Heq) as (rest & victim & Hrest & Hc).
      exists c', 0%Z, rest. split; [done|]. split; [by eexists|].
      split; [done|]. split; [done|]. split; [by left|].
      right. exists victim. by rewrite Hw.
    + exists c', 0%Z, (contents c). split; [done|]. split; [by eexists|].
      split; [done|]. split; [apply Hroom; lia|]. split; [by left|]. by left.
Qed.

Lemma Inv_keys_NoDup c : Inv c → NoDup (ikey <$> contents c).
Proof.
  intros [l [Hwf _]]. apply (cells_keys_NoDup c l); [done|by apply cells_exist].
Qed.

Lemma Inv_hash_None c k : Inv c → hash c !! k = None ↔ k ∉ ikey <$> contents c.
Proof.
  intros [l [Hwf _]]. apply (cells_hash_None c l); [done|by apply cells_exist].
Qed.

Lemma Inv_Size c : Inv c → Size c = length (contents c).
Proof.
  intros [l HR]. by rewrite (Repr_Size _ _ HR), (Repr_contents_length _ _ HR).
Qed.

(** X1.  [Clear] empties the cache: no entry is left in the list or in
    the index, [Size] is 0 and every key is absent afterwards, while the
    capacity, the TTL and the [stopped] flag are kept.  Whatever the list
    looked like before, the cleared cache is well formed. *)
Theorem Clear_empties c :
  (0 < capacity c)%Z →
  Inv (Clear c) ∧ Size (Clear c) = 0 ∧ entries (Clear c) = [] ∧
  contents (Clear c) = [] ∧
  Capacity (Clear c) = Capacity c ∧ TTLSeconds (Clear c) = TTLSeconds c ∧
  stopped (Clear c) = stopped c ∧
  ∀ k, Get k (Clear c) = Some (None, Clear c) ∧
       Remove k (Clear c) = Some (None, Clear c).
Proof.
  intros Hpos.
  assert (entries (Clear c) = []) as He.
  { unfold entries. simpl. by destruct (size (heap c)). }
  split.
  { exists []. split; [|simpl; lia]. split; [split|..]; simpl; try done.
    - constructor.
    - intros k p. simpl. rewrite lookup_empty. split; [done|].
      by intros [?%elem_of_nil _]. }
  split; [done|]. split; [done|]. split; [unfold contents; by rewrite He|].
  do 3 (split; [done|]). intros k. unfold Get, Remove. simpl.
  by rewrite lookup_empty.
Qed.

(** X2.  The capacity and the TTL of a cache are those it was constructed
    with, whatever is called on it: positive capacity, TTL not negative. *)
Theorem configuration_fixed tr s0 s :
  initial s0 → run tr s0 = Some s →
  Capacity (cache s) = Capacity (cache s0) ∧
  TTLSeconds (cache s) = TTLSeconds (cache s0) ∧
  (0 < Capacity (cache s))%Z ∧ (0 ≤ TTLSeconds (cache s))%Z.
Proof.
  intros Hinit Hrun. destruct (initial_Inv s0 Hinit) as (HI & _).
  destruct (run_config tr s0 s HI Hrun) as (_ & Hcap & Httl).
  unfold Capacity, TTLSeconds. rewrite Hcap, Httl.
  split; [done|]. split; [done|].
  destruct Hinit as [(cap & Hs)|(cap & ttl & Hs)];
    unfold sys_New, sys_NewWithTTL, New, NewWithTTL in Hs.
  - destruct (cap <=? 0)%Z eqn:Hc; simpl in Hs; [done|].
    apply Z.leb_gt in Hc. simplify_eq/=. lia.
  - destruct (cap <=? 0)%Z eqn:Hc; simpl in Hs; [done|].
    destruct (ttl <? 0)%Z eqn:Ht; simpl in Hs; [done|].
    apply Z.leb_gt in Hc. apply Z.ltb_ge in Ht. simplify_eq/=. lia.
Qed.

(** X3.  No sequence of calls and sweeper steps makes a constructed cache
    dereference a nil pointer, and after each of them [Size] is the length
    of the recency list and at most the capacity. *)
Theorem traces_never_panic tr s0 :
  initial s0 →
  ∃ s, run tr s0 = Some s ∧
    Size (cache s) = length (entries (cache s)) ∧
    (Z.of_nat (Size (cache s)) ≤ Capacity (cache s))%Z ∧
    NoDup (ikey <$> contents (cache s)).
Proof.
  intros Hinit. destruct (run_Inv tr s0 Hinit) as (s & Hrun & HI & _).
  exists s. split; [done|]. pose proof (Inv_keys_NoDup _ HI) as Hnd.
  destruct HI as [l HR]. rewrite (Repr_entries _ _ HR), (Repr_Size _ _ HR).
  split; [done|]. split; [apply HR|done].
Qed.

(** X4.  After [Put(k, v)], on a full cache or not, [Get(k)] returns [v],
    and since the entry is already at the head that [Get] changes
    nothing. *)
Theorem Put_then_Get now c k v :
  Inv c →
  ∃ c1, Put now k v c = Some c1 ∧ Get k c1 = Some (v, c1) ∧
    is_Some (hash c1 !! k) ∧ 1 ≤ Size c1.
Proof.
  intros HI.
  destruct (Put_contents now c k v HI) as (c1 & old & rest & HPut & HI1 & _ & Hc & _).
  exists c1. split; [done|]. split; [exact (Get_head c1 _ rest HI1 Hc)|].
  split.
  - destruct (hash c1 !! k) eqn:Hk; [by eauto|].
    apply (Inv_hash_None _ _ HI1) in Hk. exfalso. apply Hk. rewrite Hc. by left.
  - rewrite (Inv_Size _ HI1), Hc. simpl. lia.
Qed.

(** X5.  After [Remove(k)], whether [k] was in the cache or not, [k] is
    absent: the other entries are as they were, [Get(k)] and a second
    [Remove(k)] answer nil and change nothing. *)
Theorem Remove_then_absent c k :
  Inv c →
  ∃ r c1, Remove k c = Some (r, c1) ∧ Inv c1 ∧
    contents c1 = without k (contents c) ∧ Size c1 ≤ Size c ∧
    hash c1 !! k = None ∧
    Get k c1 = Some (None, c1) ∧ Remove k c1 = Some (None, c1).
Proof.
  intros HI. pose proof HI as [l HR].
  assert (∀ c1, hash c1 !! k = None →
    Get k c1 = Some (None, c1) ∧ Remove k c1 = Some (None, c1)) as Habs.
  { intros c1 Hk. unfold Get, Remove. by rewrite Hk. }
  destruct (hash c !! k) as [e|] eqn:Hk.
  - destruct (Repr_Remove c l k e HR Hk)
      as (i & it & c1 & Hi & Hit & Hkey & HRem & HR1 & _ & Hh & _ & Hc).
    assert (hash c1 !! k = None) as Hk1 by (rewrite Hh; apply lookup_delete_eq).
    exists (ival it), c1. split; [done|]. split; [by eexists|]. split; [done|].
    split; [|split; [done|by apply Habs]].
    rewrite (Repr_Size _ _ HR), (Repr_Size _ _ HR1), length_delete by eauto. lia.
  - exists None, c. split; [unfold Remove; by rewrite Hk|]. split; [done|].
    split; [|split; [done|split; [done|by apply Habs]]].
    symmetry. apply without_absent. by apply (Inv_hash_None _ _ HI).
Qed.

(** X6.  [Get] never adds, removes or rewrites an entry: the cache holds
    the same entries after it, only their order may differ, and the index,
    [Size] and the configuration are unchanged. *)
Theorem Get_keeps_entries c k :
  Inv c →
  ∃ r c', Get k c = Some (r, c') ∧ Inv c' ∧
    hash c' = hash c ∧ Size c' = Size c ∧ same_config c c' ∧
    contents c' ≡ₚ contents c.
Proof.
  intros HI. pose proof HI as [l HR].
  destruct (hash c !! k) as [e|] eqn:Hk.
  - destruct (Repr_Get_hit c l k e HR Hk)
      as (i & it & c' & Hi & Hit & Hkey & HGet & HR' & Hcf & Hh & _ & _ & Hc).
    exists (ival it), c'. split; [done|]. split; [by eexists|]. split; [done|].
    split; [unfold Size; by rewrite Hh|]. split; [done|].
    rewrite Hc, <- Hkey, <- (without_delete _ i it); [|by apply Inv_keys_NoDup|done].
    symmetry. by apply delete_Permutation.
  - exists None, c. split; [unfold Get; by rewrite Hk|].
    split; [done|]. split; [done|]. split; [done|].
    split; [apply same_config_refl|done].
Qed.

(** X7.  [Put(k, v)] writes one entry, for [k], at the head; behind it are
    entries the cache already held, unchanged and in their order, none for
    [k].  With TTL enabled the entry expires [ttlSeconds] after [now]. *)
Theorem Put_leaves_others now c k v :
  Inv c →
  ∃ c' t rest, Put now k v c = Some c' ∧
    contents c' = (k, v, t) :: rest ∧
    rest `sublist_of` contents c ∧ (k ∉ ikey <$> rest) ∧
    ((0 < ttlSeconds c)%Z → t = wrap64 (now + ttlSeconds c)).
Proof.
  intros HI.
  destruct (Put_contents now c k v HI)
    as (c' & old & rest & HPut & HI' & _ & Hc & _ & Hrest).
  exists c', (expiry now (ttlSeconds c) old), rest.
  split; [done|]. split; [done|].
  assert (rest `sublist_of` without k (contents c)) as Hsub.
  { destruct Hrest as [->|(victim & -> & _)]; [done|]. by apply sublist_inserts_r. }
  split; [|split].
  - etrans; [done|apply without_sublist].
  - intros (x & Hkx & Hx)%list_elem_of_fmap.
    eapply sublist_subseteq in Hx; [|done].
    apply list_elem_of_filter in Hx as [Hne _]. by apply Hne.
  - intros Httl. unfold expiry. apply Z.ltb_lt in Httl. by rewrite Httl.
Qed.

(** X8.  With room for two entries or more, the entry just written is not
    the one the next [Put] evicts: after [Put(k, v)] and a [Put] of another
    key, [Get(k)] still returns [v]. *)
Theorem latest_entry_survives_next_Put now now' c k v k' v' :
  Inv c → (2 ≤ capacity c)%Z → k ≠ k' →
  ∃ c1 c2 c3, Put now k v c = Some c1 ∧ Put now' k' v' c1 = Some c2 ∧
    Get k c2 = Some (v, c3).
Proof.
  intros HI Hcap Hne.
  destruct (Put_contents now c k v HI)
    as (c1 & old & rest1 & HPut1 & HI1 & (Hcap1 & _) & Hc1 & _).
  destruct (Put_contents now' c1 k' v' HI1)
    as (c2 & old' & rest2 & HPut2 & HI2 & _ & Hc2 & _ & Hrest).
  set (it := (k, v, expiry now (ttlSeconds c) old)) in *.
  assert (it ∈ rest2) as Hit.
  { assert (without k' (contents c1) = it :: without k' rest1) as Hw.
    { rewrite Hc1. unfold without. by rewrite filter_cons_True. }
    destruct Hrest as [->|(victim & Hv & Hk' & Hfull)].
    - rewrite Hw. by left.
    - rewrite without_absent in Hv by (by apply (Inv_hash_None _ _ HI1)).
      rewrite Hc1 in Hv, Hfull. simpl in Hfull.
      destruct rest2 as [|x rest2]; simpl in Hv.
      + simplify_eq. simpl in Hfull. lia.
      + simplify_eq. by left. }
  destruct (Get_member c2 it HI2) as (c3 & HGet & _).
  { rewrite Hc2. by right. }
  exists c1, c2, c3. done.
Qed.

(** X9.  A cache of capacity 1 holds the last key put and nothing else:
    a [Put] of a new key leaves exactly that entry. *)
Theorem capacity_one_keeps_last now c k v :
  Inv c → capacity c = 1%Z → hash c !! k = None →
  ∃ c', Put now k v c = Some c' ∧
    contents c' = [(k, v, expiry now (ttlSeconds c) 0)] ∧ Size c' = 1.
Proof.
  intros HI Hcap Hk. pose proof HI as [l HR].
  destruct (Repr_Put_miss now c l k v HR Hk)
    as (c' & l' & HPut & HR' & _ & Hroom & Hfull).
  exists c'. split; [done|].
  assert (contents c' = [(k, v, expiry now (ttlSeconds c) 0)]) as Hc.
  { pose proof (Repr_contents_length _ _ HR) as Hlen.
    destruct HR as (_ & Hle & _). rewrite <- Hlen, Hcap in Hle.
    destruct (contents c) as [|x [|y al]] eqn:Hcc; simpl in *; [|..|lia].
    - apply Hroom. lia.
    - destruct Hfull as (rest & victim & Hrest & Hc'); [lia|].
      destruct rest as [|z rest]; [done|].
      simplify_eq/=. by destruct rest. }
  split; [done|]. rewrite (Inv_Size c'); [by rewrite Hc|by eexists].
Qed.

Lemma last_put_time_snoc tr ev k :
  last_put_time (tr ++ [ev]) k =
    match put_time ev k with Some t => Some t | None => last_put_time tr k end.
Proof.
  induction tr as [|ev' tr IH]; simpl.
  - by destruct (put_time ev k).
  - rewrite IH. destruct (put_time ev k); [done|]. by destruct (last_put_time tr k).
Qed.

(** Where the entries after an event come from: the cache before, or the
    [Put] that the event is. *)
Lemma step_expiry ev s s' x :
  Inv (cache s) → step ev s = Some s' → x ∈ contents (cache s') →
  (x ∈ contents (cache s) ∧ put_time ev (ikey x) = None) ∨
  (∃ now v old, ev = EPut now (ikey x) v ∧
     iexp x = expiry now (ttlSeconds (cache s)) old ∧
     (old = 0%Z ∨ ∃ y, y ∈ contents (cache s) ∧ ikey y = ikey x ∧ iexp y = old)).
Proof.
  intros HI Hstep Hx.
  destruct (decide (is_Some (put_key ev))) as [[k Hk]|Hnp].
  - destruct ev as [|now k' v| | | |]; simplify_eq/=.
    destruct (Put_contents now (cache s) k v HI)
      as (c' & old & rest & HPut & _ & _ & Hc & Hold & Hrest).
    rewrite HPut in Hstep. simplify_eq/=. rewrite Hc in Hx.
    apply elem_of_cons in Hx as [->|Hx].
    + right. exists now, v, old. split; [done|]. split; [done|].
      destruct Hold as [[-> _]|?]; [by left|by right].
    + left. assert (x ∈ without k (contents (cache s))) as Hw.
      { destruct Hrest as [->|(victim & -> & _)]; [done|].
        apply elem_of_app. by left. }
      apply list_elem_of_filter in Hw as [Hne Hw]. split; [done|].
      by rewrite bool_decide_false by done.
  - left. destruct (step_Inv ev s HI) as (s1 & Hstep1 & _ & _ & _ & _ & Hsh).
    assert (s1 = s') as -> by congruence.
    assert (∀ k, put_time ev k = None ∧ puts ev k = None) as Hno.
    { intros k. destruct ev; try done. exfalso. apply Hnp. by eexists. }
    split; [|apply Hno].
    destruct Hsh as [[Hsub _]|(it & rest & Hc & Hsub & _ & _ & Hit)].
    + by eapply sublist_subseteq.
    + rewrite (proj2 (Hno _)) in Hit. rewrite Hc in Hx.
      apply elem_of_cons in Hx as [->|Hx]; [done|]. by eapply sublist_subseteq.
Qed.

Lemma expiry_inv tr s0 :
  initial s0 →
  ∃ s, run tr s0 = Some s ∧ Inv (cache s) ∧
    ∀ x, x ∈ contents (cache s) →
      ∃ t, last_put_time tr (ikey x) = Some t ∧
           iexp x = expiry t (ttlSeconds (cache s)) 0.
Proof.
  intros Hinit. induction tr as [|ev tr IH] using rev_ind.
  - exists s0. destruct (initial_Inv s0 Hinit) as (HI & Hc & _).
    split; [done|]. split; [done|]. rewrite Hc. by intros x ?%elem_of_nil.
  - destruct IH as (s & Hrun & HI & Hexp).
    destruct (step_Inv ev s HI) as (s' & Hstep & HI' & _ & Httl & _).
    exists s'. rewrite run_snoc, Hrun. simpl. split; [done|]. split; [done|].
    intros x Hx. rewrite last_put_time_snoc, Httl.
    destruct (step_expiry ev s s' x HI Hstep Hx)
      as [[Hold Hpt]|(now & v & old & -> & Hiexp & Hold)].
    + rewrite Hpt. by apply Hexp.
    + simpl. rewrite bool_decide_true by done. exists now. split; [done|].
      rewrite Hiexp. unfold expiry. destruct (0 <? ttlSeconds (cache s))%Z eqn:Hpos; [done|].
      destruct Hold as [->|(y & Hy & _ & <-)]; [done|].
      destruct (Hexp y Hy) as (t & _ & ->). unfold expiry. by rewrite Hpos.
Qed.

(** X10.  The [expireTime] of an entry is fixed by the last [Put] of its
    key: [ttlSeconds] after the clock reading of that [Put] (in [int64]
    arithmetic) when TTL is enabled, and 0 when it is disabled.  A [Get]
    does not renew it. *)
Theorem expiry_from_last_Put tr s0 s x :
  initial s0 → run tr s0 = Some s → x ∈ contents (cache s) →
  ∃ t, last_put_time tr (ikey x) = Some t ∧
    iexp x = if (0 <? TTLSeconds (cache s))%Z
             then wrap64 (t + TTLSeconds (cache s)) else 0%Z.
Proof.
  intros Hinit Hrun Hx. destruct (expiry_inv tr s0 Hinit) as (s' & Hrun' & _ & Hexp).
  assert (s' = s) as -> by congruence. exact (Hexp x Hx).
Qed.

(** X11.  With TTL disabled ([New], or [NewWithTTL] with 0 seconds) the
    sweeper never reaches its loop: whenever it is scheduled it leaves the
    cache as it is, so no entry ever leaves by expiry. *)
Theorem ttl_disabled_never_sweeps tr s0 s :
  initial s0 → TTLSeconds (cache s0) = 0%Z → run tr s0 = Some s →
  sweeper s ≠ Sleeping ∧
  ∀ now, ∃ s', step (ESweeper now) s = Some s' ∧ cache s' = cache s ∧
               sweeper s' = Gone.
Proof.
  intros Hinit Httl Hrun. unfold TTLSeconds in Httl.
  assert (sweeper s ≠ Sleeping ∧ ttlSeconds (cache s) = 0%Z) as [Hsw Httl'].
  { assert (sweeper s0 ≠ Sleeping) as Hsw0.
    { destruct Hinit as [(cap & Hs)|(cap & ttl & Hs)];
        unfold sys_New, sys_NewWithTTL in Hs; by simplify_option_eq. }
    destruct (initial_Inv s0 Hinit) as (HI & _). clear Hinit.
    revert s0 HI Httl Hsw0 Hrun.
    induction tr as [|ev tr IH]; intros s0 HI Httl Hsw0 Hrun; simpl in Hrun.
    - by simplify_eq.
    - destruct (step_Inv ev s0 HI) as (s1 & Hstep & HI1 & _ & Httl1 & _).
      rewrite Hstep in Hrun. simpl in Hrun.
      apply (IH s1); [done|congruence| |done].
      destruct ev; simpl in Hstep; try (by simplify_option_eq).
      unfold pruneExpiredEntries in Hstep. destruct (sweeper s0) eqn:Hs0; [|done|by simplify_eq; rewrite Hs0].
      rewrite bool_decide_true in Hstep by done. by simplify_eq/=. }
  split; [done|]. intros now. simpl. unfold pruneExpiredEntries.
  destruct (sweeper s) eqn:Hs; [|done|].
  - rewrite bool_decide_true by done. simpl. eauto.
  - exists s. by rewrite Hs.
Qed.

Lemma wrap64_small z :
  (- 2 ^ 63 ≤ z < 2 ^ 63)%Z → wrap64 z = z.
Proof. intros Hz. unfold wrap64. rewrite Z.mod_small; lia. Qed.

Lemma wrap64_over z :
  (2 ^ 63 ≤ z < 2 ^ 64)%Z → wrap64 z = (z - 2 ^ 64)%Z.
Proof.
  intros Hz. unfold wrap64.
  rewrite <- (Z.mod_unique (z + 2 ^ 63) (2 ^ 64) 1 (z - 2 ^ 63)); lia.
Qed.

(** [Put] and then a tick: the entry stays or goes by its [expireTime]. *)
Lemma Put_tick now now' c k v :
  Inv c → stopped c = false → (0 < ttlSeconds c)%Z →
  ∃ c1 c2, Put now k v c = Some c1 ∧ tick now' c1 = Some (c2, false) ∧
    ((now' < wrap64 (now + ttlSeconds c))%Z →
       ∃ c3, Get k c2 = Some (v, c3)) ∧
    ((wrap64 (now + ttlSeconds c) ≤ now')%Z →
       hash c2 !! k = None ∧ Get k c2 = Some (None, c2)).
Proof.
  intros HI Hst Httl.
  destruct (Put_contents now c k v HI)
    as (c1 & old & rest & HPut & HI1 & (_ & _ & Hst1) & Hc1 & _).
  assert (expiry now (ttlSeconds c) old = wrap64 (now + ttlSeconds c)) as Hexp.
  { unfold expiry. apply Z.ltb_lt in Httl. by rewrite Httl. }
  rewrite Hexp in Hc1. set (it := (k, v, wrap64 (now + ttlSeconds c))) in *.
  pose proof (Inv_keys_NoDup _ HI1) as Hnd.
  destruct HI1 as [l1 HR1].
  destruct (Repr_tick now' c1 l1 HR1) as (c2 & Htick & HR2 & _ & _ & Hc2); [congruence|].
  assert (Inv c2) as HI2 by (by eexists).
  exists c1, c2. split; [done|]. split; [done|]. split.
  - intros Hlive. destruct (Get_member c2 it HI2) as (c3 & HGet & _).
    { rewrite Hc2, Hc1. apply list_elem_of_filter. split; [simpl; lia|by left]. }
    by exists c3.
  - intros Hdead. assert (hash c2 !! k = None) as Hk.
    { apply (Inv_hash_None _ _ HI2).
      intros (x & Hkx & Hx)%list_elem_of_fmap.
      rewrite Hc2 in Hx. apply list_elem_of_filter in Hx as [Hlive Hx].
      rewrite Hc1 in Hx, Hnd. rewrite fmap_cons in Hnd.
      apply NoDup_cons in Hnd as [Hnk _].
      apply elem_of_cons in Hx as [->|Hx].
      + apply Hlive. simpl. lia.
      + apply Hnk. change (ikey it) with k. rewrite Hkx.
        by apply list_elem_of_fmap_2. }
    split; [done|]. unfold Get. by rewrite Hk.
Qed.

(** X12.  The life of an entry: put at time [now] with TTL enabled (and
    [now + ttlSeconds] within [int64]), it is still found, with its value,
    after a tick that reads a time before [now + ttlSeconds], and it is
    gone after a tick that reads that time or a later one. *)
Theorem entry_lifetime now now' c k v :
  Inv c → stopped c = false → (0 < ttlSeconds c)%Z →
  (- 2 ^ 63 ≤ now + ttlSeconds c < 2 ^ 63)%Z →
  ∃ c1 c2, Put now k v c = Some c1 ∧ tick now' c1 = Some (c2, false) ∧
    ((now' < now + ttlSeconds c)%Z → ∃ c3, Get k c2 = Some (v, c3)) ∧
    ((now + ttlSeconds c ≤ now')%Z →
       hash c2 !! k = None ∧ Get k c2 = Some (None, c2)).
Proof.
  intros HI Hst Httl Hrange.
  destruct (Put_tick now now' c k v HI Hst Httl) as (c1 & c2 & HPut & Htick & Hlive & Hdead).
  rewrite wrap64_small in Hlive, Hdead by done. by exists c1, c2.
Qed.

(** X13.  When [now + ttlSeconds] exceeds [int64] the sum wraps around to
    a negative [expireTime]: the entry is written already expired, and the
    first tick at any time from 0 on removes it. *)
Theorem ttl_overflow_expires_at_once now now' c k v :
  Inv c → stopped c = false → (0 < ttlSeconds c)%Z →
  (2 ^ 63 ≤ now + ttlSeconds c < 2 ^ 64)%Z → (0 ≤ now')%Z →
  ∃ c1 c2 rest, Put now k v c = Some c1 ∧
    contents c1 = (k, v, (now + ttlSeconds c - 2 ^ 64)%Z) :: rest ∧
    tick now' c1 = Some (c2, false) ∧
    hash c2 !! k = None ∧ Get k c2 = Some (None, c2).
Proof.
  intros HI Hst Httl Hrange Hnow'.
  destruct (Put_tick now now' c k v HI Hst Httl) as (c1 & c2 & HPut & Htick & _ & Hdead).
  destruct (Put_contents now c k v HI) as (c1' & old & rest & HPut' & _ & _ & Hc1 & _).
  assert (c1' = c1) as -> by congruence.
  unfold expiry in Hc1. apply Z.ltb_lt in Httl as Httl'. rewrite Httl' in Hc1.
  rewrite wrap64_over in Hc1, Hdead by done.
  exists c1, c2, rest. split; [done|]. split; [done|]. split; [done|].
  apply Hdead. lia.
Qed.





(** X15.  [unlink] takes an entry out of a well-linked list, wherever it
    stands: the list is the old one without it, the entry's own [prev] and
    [next] are nil afterwards, and neither the index nor any key, value or
    expiry is touched.  Unlinking the only entry leaves head and tail nil. *)
Theorem unlink_takes_out c l i e :
  is_list c l → l !! i = Some e →
  ∃ c' en, heap c !! e = Some en ∧ unlink e c = Some c' ∧
    is_list c' (delete i l) ∧ entries c' = delete i l ∧
    heap c' !! e = Some (Entry None None (key en) (value en) (expireTime en)) ∧
    hash c' = hash c ∧ same_config c c' ∧ same_payload c c' ∧
    (l = [e] → head c' = None ∧ tail c' = None).
Proof.
  intros Hil Hi.
  destruct (is_list_unlink c l i e Hil Hi)
    as (c' & en & Hen & Hun & Hil' & Hcf & Hh & Hsp & He).
  exists c', en. repeat (split; [done|]).
  split; [by apply is_list_entries|]. repeat (split; [done|]).
  intros ->. destruct i; [|done]. simpl in Hil'.
  by rewrite (il_head _ _ Hil'), (il_tail _ _ Hil').
Qed.

(** X16.  [prepend] puts an entry that is outside the list, with a nil
    [prev], in front of it; into an empty list it becomes the tail as
    well.  A following [unlink] of that entry gives back the list as it
    was. *)
Theorem prepend_then_unlink c l e en :
  is_list c l → e ∉ l → heap c !! e = Some en → prev en = None →
  ∃ c1 c2, prepend e c = Some c1 ∧
    is_list c1 (e :: l) ∧ entries c1 = e :: l ∧ head c1 = Some e ∧
    (l = [] → tail c1 = Some e) ∧ (l ≠ [] → tail c1 = tail c) ∧
    hash c1 = hash c ∧ same_payload c c1 ∧
    unlink e c1 = Some c2 ∧ is_list c2 l ∧ entries c2 = l ∧
    head c2 = head c ∧ tail c2 = tail c ∧ same_payload c c2.
Proof.
  intros Hil Hel Hen Hpv.
  destruct (is_list_prepend c l e en Hil Hel Hen Hpv)
    as (c1 & Hpr & Hil1 & Hcf1 & Hh1 & Hsp1).
  destruct (is_list_unlink c1 (e :: l) 0 e Hil1 eq_refl)
    as (c2 & en1 & Hen1 & Hun & Hil2 & Hcf2 & Hh2 & Hsp2 & He2).
  simpl in Hil2. exists c1, c2. split; [done|]. split; [done|].
  split; [by apply is_list_entries|]. split; [by rewrite (il_head _ _ Hil1)|].
  split; [by intros ->; rewrite (il_tail _ _ Hil1)|].
  split.
  { intros Hne. rewrite (il_tail _ _ Hil1), (il_tail _ _ Hil), last_cons.
    destruct (last l) eqn:Hl; [done|]. by apply last_None in Hl. }
  split; [done|]. split; [done|]. split; [done|]. split; [done|].
  split; [by apply is_list_entries|].
  split; [by rewrite (il_head _ _ Hil2), (il_head _ _ Hil)|].
  split; [by rewrite (il_tail _ _ Hil2), (il_tail _ _ Hil)|].
  by eapply same_payload_trans.
Qed.

(** No method reads the [stopped] flag. *)
Lemma upd_stopped b p f c :
  upd p f (set_stopped b c) = set_stopped b <$> upd p f c.
Proof. unfold upd. simpl. by destruct (heap c !! p). Qed.

Lemma unlink_stopped b e c :
  unlink e (set_stopped b c) = set_stopped b <$> unlink e c.
Proof.
  unfold unlink. simpl. destruct (heap c !! e) as [en|]; [|done]. simpl.
  assert (∀ c1 : lrucache K V,
    (heap c1 !! e ≫= λ en1,
       match next en1 with
       | Some n => upd n (set_prev (prev en1)) (set_stopped b c1)
       | None => Some (set_tail (prev en1) (set_stopped b c1))
       end ≫= λ c2, upd e (set_prev None) c2 ≫= λ c3, upd e (set_next None) c3)
    = set_stopped b <$>
      (heap c1 !! e ≫= λ en1,
       match next en1 with
       | Some n => upd n (set_prev (prev en1)) c1
       | None => Some (set_tail (prev en1) c1)
       end ≫= λ c2, upd e (set_prev None) c2 ≫= λ c3, upd e (set_next None) c3))
    as Hrest.
  { intros c1. destruct (heap c1 !! e) as [en1|]; [|done]. simpl.
    assert (∀ c2 : lrucache K V,
      (upd e (set_prev None) (set_stopped b c2) ≫= λ c3, upd e (set_next None) c3)
      = set_stopped b <$> (upd e (set_prev None) c2 ≫= λ c3, upd e (set_next None) c3))
      as Hlast.
    { intros c2. rewrite upd_stopped. destruct (upd e (set_prev None) c2); [|done].
      simpl. apply upd_stopped. }
    destruct (next en1) as [n|]; simpl.
    - rewrite upd_stopped. destruct (upd n _ c1) as [c2|]; [|done]. simpl. apply Hlast.
    - apply (Hlast (set_tail (prev en1) c1)). }
  destruct (prev en) as [p|]; simpl.
  - rewrite upd_stopped. destruct (upd p _ c) as [c1|]; [|done]. simpl. apply Hrest.
  - apply (Hrest (set_head (next en) c)).
Qed.

Lemma prepend_stopped b e c :
  prepend e (set_stopped b c) = set_stopped b <$> prepend e c.
Proof.
  unfold prepend. simpl. rewrite upd_stopped.
  destruct (upd e _ c) as [c1|]; [|done]. simpl.
  destruct (head c1) as [h|]; simpl.
  - rewrite upd_stopped. destruct (upd h _ c1) as [c2|]; [|done]. simpl.
    by destruct (tail c2).
  - by destruct (tail c1).
Qed.

Lemma promote_stopped b e c :
  promote e (set_stopped b c) = set_stopped b <$> promote e c.
Proof.
  unfold promote. simpl. case_decide; [done|].
  rewrite unlink_stopped. destruct (unlink e c) as [c1|]; [|done]. simpl.
  apply prepend_stopped.
Qed.

Lemma stamp_stopped b now e c :
  stamp now e (set_stopped b c) = set_stopped b <$> stamp now e c.
Proof. unfold stamp. simpl. destruct (0 <? ttlSeconds c)%Z; [apply upd_stopped|done]. Qed.

Lemma evict_stopped b c : evict (set_stopped b c) = set_stopped b <$> evict c.
Proof.
  unfold evict. simpl. destruct (capacity c <? _)%Z; [|done].
  destruct (tail c) as [t|]; [|done]. simpl. rewrite unlink_stopped.
  destruct (unlink t c) as [c1|]; [|done]. simpl.
  by destruct (heap c1 !! t).
Qed.

(** X17.  [Stop] takes nothing away from the cache: [Get], [Put],
    [Remove] and [Clear] do after [Stop] exactly what they do before it,
    with the flag left set. *)
Theorem Stop_keeps_methods now c k v :
  Get k (Stop c) = (λ r, (r.1, Stop r.2)) <$> Get k c ∧
  Put now k v (Stop c) = Stop <$> Put now k v c ∧
  Remove k (Stop c) = (λ r, (r.1, Stop r.2)) <$> Remove k c ∧
  Clear (Stop c) = Stop (Clear c) ∧
  Size (Stop c) = Size c ∧ Capacity (Stop c) = Capacity c ∧
  TTLSeconds (Stop c) = TTLSeconds c.
Proof.
  unfold Stop. split; [|split; [|split; [|done]]].
  - unfold Get. simpl. destruct (hash c !! k) as [e|]; [|done].
    rewrite promote_stopped. destruct (promote e c) as [c1|]; [|done]. simpl.
    by destruct (heap c1 !! e).
  - unfold Put. simpl. destruct (hash c !! k) as [e|].
    + rewrite upd_stopped. destruct (upd e _ c) as [c1|]; [|done]. simpl.
      rewrite stamp_stopped. destruct (stamp now e c1) as [c2|]; [|done]. simpl.
      apply promote_stopped.
    + unfold alloc. simpl. set (p := fresh (dom (heap c))).
      set (h := <[p := _]> (heap c)).
      change (set_heap h (set_stopped true c)) with (set_stopped true (set_heap h c)).
      rewrite stamp_stopped. destruct (stamp now p _) as [c2|]; [|done]. simpl.
      rewrite prepend_stopped. destruct (prepend p c2) as [c3|]; [|done]. simpl.
      apply (evict_stopped true (set_hash _ c3)).
  - unfold Remove. simpl. destruct (hash c !! k) as [e|]; [|done].
    rewrite unlink_stopped. destruct (unlink e c) as [c1|]; [|done]. simpl.
    by destruct (heap c1 !! e).
Qed.

(** X18.  After a tick every entry left has an [expireTime] later than
    the time the tick read, and a second tick that reads the same time or
    an earlier one removes nothing. *)
Theorem tick_twice now now' c :
  Inv c → stopped c = false → (now' ≤ now)%Z →
  ∃ c1 c2, tick now c = Some (c1, false) ∧
    (∀ x, x ∈ contents c1 → (now < iexp x)%Z) ∧
    tick now' c1 = Some (c2, false) ∧
    contents c2 = contents c1 ∧ Size c2 = Size c1.
Proof.
  intros [l HR] Hst Hle.
  destruct (Repr_tick now c l HR Hst) as (c1 & Ht1 & HR1 & (_ & _ & Hst1) & _ & Hc1).
  destruct (Repr_tick now' c1 _ HR1) as (c2 & Ht2 & HR2 & _ & _ & Hc2); [congruence|].
  assert (contents c2 = contents c1) as Hc.
  { rewrite Hc2, Hc1. apply list_filter_filter_r. intros x Hx. lia. }
  exists c1, c2. split; [done|]. split.
  { intros x Hx. rewrite Hc1 in Hx. apply list_elem_of_filter in Hx as [Hx _]. lia. }
  split; [done|]. split; [done|].
  assert (Inv c1) as HI1 by (by eexists). assert (Inv c2) as HI2 by (by eexists).
  by rewrite (Inv_Size _ HI1), (Inv_Size _ HI2), Hc.
Qed.

Lemma StronglySorted_lookup {A} (R : relation A) (l : list A) i j x y :
  StronglySorted R l → i < j → l !! i = Some x → l !! j = Some y → R x y.
Proof.
  intros Hs Hij Hi Hj. rewrite <- (take_drop j l) in Hs.
  apply (StronglySorted_app_1_elem_of _ _ _ x y Hs).
  - apply (list_elem_of_lookup_2 _ i). by rewrite lookup_take_lt.
  - apply (list_elem_of_lookup_2 _ 0). rewrite lookup_drop. by rewrite Nat.add_0_r.
Qed.

(** X19.  The recency list is in the order of last use: of two entries,
    the one nearer the head has the later last [Get] or [Put] of its key in
    the history of the cache. *)
Theorem recency_order tr s0 s i j x y :
  initial s0 → run tr s0 = Some s →
  contents (cache s) !! i = Some x → contents (cache s) !! j = Some y → i < j →
  0 < last_touch tr (ikey y) ∧ last_touch tr (ikey y) < last_touch tr (ikey x).
Proof.
  intros Hinit Hrun Hi Hj Hij.
  destruct (run_Inv tr s0 Hinit) as (s' & Hrun' & _ & _ & Hs & Hpos).
  assert (s' = s) as -> by congruence. split.
  - eapply Forall_forall in Hpos; [done|]. by eapply list_elem_of_lookup_2.
  - exact (StronglySorted_lookup _ _ i j x y Hs Hij Hi Hj).
Qed.

(** X20.  Every entry of the cache holds the value of the last [Put] of
    its key; [Get], [Remove] of other keys, eviction and sweeping never
    alter a stored value. *)
Theorem entries_hold_last_Put tr s0 s x :
  initial s0 → run tr s0 = Some s → x ∈ contents (cache s) →
  last_put tr (ikey x) = Some (ival x) ∧
  ∃ c', Get (ikey x) (cache s) = Some (ival x, c').
Proof.
  intros Hinit Hrun Hx.
  destruct (run_Inv tr s0 Hinit) as (s' & Hrun' & HI & Hv & _).
  assert (s' = s) as -> by congruence. split; [by apply Hv|].
  destruct (Get_member _ x HI Hx) as (c' & HGet & _). by exists c'.
Qed.

End Theory.

(** * Instances *)

Lemma ex_init_initial : initial ex_init.
Proof. right. by exists 2%Z, 1%Z. Qed.

Lemma ex_run : run ex_trace ex_init = Some ex_sys.
Proof. vm_compute. reflexivity. Qed.

Lemma ex_cache_Inv : Inv ex_cache.
Proof. exact (reachable_Inv ex_trace ex_init ex_sys ex_init_initial ex_run). Qed.

(** The scenario of the description: capacity 2, [Put(A,1)], [Put(B,2)],
    [Get(A)], [Put(C,3)] evicts B. *)
Example scenario_evicts_B :
  let A := 1%nat in let B := 2%nat in let C := 3%nat in
  (c0 ← New (K:=nat) (V:=nat) 2;
   c1 ← Put 0 A (Some 1%nat) c0;
   c2 ← Put 0 B (Some 2%nat) c1;
   r3 ← Get A c2;
   c4 ← Put 0 C (Some 3%nat) r3.2;
   rB ← Get B c4;
   rA ← Get A rB.2;
   rC ← Get C rA.2;
   Some (r3.1, Size c4, rB.1, rA.1, rC.1))
  = Some (Some 1%nat, 2%nat, None, Some 1%nat, Some 3%nat).
Proof. vm_compute. reflexivity. Qed.

(** C1, as claimed, fails.  TTL is enabled and the entry of key 7 expired
    at 101.  [Get] does not answer absent with the entry gone from the index
    and [Size] one less: it returns the value 42, and the entry is still in
    the list and in the index afterwards, with [Size] 2 as before. *)
Lemma Get_expired_counterexample :
  (0 < ttlSeconds ex_cache)%Z ∧
  (∃ e en, hash ex_cache !! 7%nat = Some e ∧ heap ex_cache !! e = Some en ∧
     (expireTime en ≤ 101)%Z) ∧
  Size ex_cache = 2%nat ∧
  ¬ (∃ c', Get 7%nat ex_cache = Some (None, c') ∧
       hash c' !! 7%nat = None ∧ Size c' = 1%nat) ∧
  ∃ c', Get 7%nat ex_cache = Some (Some 42%nat, c') ∧
    hash c' !! 7%nat = Some 1%positive ∧ 1%positive ∈ entries c' ∧
    Size c' = 2%nat.
Proof.
  split; [reflexivity|]. split.
  { eexists _, _. split; [vm_compute; reflexivity|].
    split; [vm_compute; reflexivity|]. vm_compute. discriminate. }
  split; [vm_compute; reflexivity|]. split.
  { intros (c' & HGet & _). vm_compute in HGet. discriminate. }
  eexists. split; [vm_compute; reflexivity|]. split; [vm_compute; reflexivity|].
  split; [|vm_compute; reflexivity].
  apply list_elem_of_In. vm_compute. auto.
Qed.

Lemma Get_ignores_expiry_witness :
  (0 < ttlSeconds ex_cache)%Z ∧
  hash ex_cache !! 7%nat = Some 1%positive ∧
  ∃ c', Get 7%nat ex_cache = Some (Some 42%nat, c') ∧
    head c' = Some 1%positive ∧ hash c' = hash ex_cache ∧ Size c' = Size ex_cache ∧
    contents c' = (7%nat, Some 42%nat, 101%Z) :: without 7%nat (contents ex_cache) ∧
    Inv c'.
Proof.
  split; [reflexivity|]. split; [vm_compute; reflexivity|].
  apply (Get_ignores_expiry 101 ex_cache 7%nat 1%positive
           (Entry None (Some 2%positive) 7%nat (Some 42%nat) 101)).
  - exact ex_cache_Inv.
  - reflexivity.
  - vm_compute; reflexivity.
  - vm_compute; reflexivity.
  - simpl. lia.
Defined.

Lemma Put_existing_key_witness :
  hash ex_cache !! 7%nat = Some 1%positive ∧
  ∃ c', Put 110 7%nat (Some 50%nat) ex_cache = Some c' ∧
    head c' = Some 1%positive ∧ hash c' = hash ex_cache ∧ Size c' = Size ex_cache ∧
    contents c' =
      (7%nat, Some 50%nat,
       if (0 <? ttlSeconds ex_cache)%Z then wrap64 (110 + ttlSeconds ex_cache)
       else 101%Z)
      :: without 7%nat (contents ex_cache) ∧
    Inv c'.
Proof.
  split; [vm_compute; reflexivity|].
  apply (Put_existing_key 110 ex_cache 7%nat (Some 50%nat) 1%positive
           (Entry None (Some 2%positive) 7%nat (Some 42%nat) 101)).
  - exact ex_cache_Inv.
  - vm_compute; reflexivity.
  - vm_compute; reflexivity.
Defined.

Lemma Remove_present_key_witness :
  initial ex_init ∧ run ex_trace ex_init = Some ex_sys ∧
  hash (cache ex_sys) !! 7%nat = Some 1%positive ∧
  ∃ c', Remove 7%nat (cache ex_sys) = Some (Some 42%nat, c') ∧
    last_put ex_trace 7%nat = Some (Some 42%nat) ∧
    entries c' = filter (λ p, p ≠ 1%positive) (entries (cache ex_sys)) ∧
    hash c' = delete 7%nat (hash (cache ex_sys)) ∧
    contents c' = without 7%nat (contents (cache ex_sys)) ∧
    S (Size c') = Size (cache ex_sys) ∧ Inv c'.
Proof.
  split; [exact ex_init_initial|]. split; [exact ex_run|].
  split; [vm_compute; reflexivity|].
  apply (Remove_present_key ex_trace ex_init ex_sys 7%nat 1%positive
           (Entry None (Some 2%positive) 7%nat (Some 42%nat) 101)).
  - exact ex_init_initial.
  - exact ex_run.
  - vm_compute; reflexivity.
  - vm_compute; reflexivity.
Defined.

Lemma Get_present_twice_witness :
  initial ex_init ∧ run ex_trace ex_init = Some ex_sys ∧
  hash (cache ex_sys) !! 7%nat = Some 1%positive ∧
  ∃ v t c1, Get 7%nat (cache ex_sys) = Some (v, c1) ∧
    last_put ex_trace 7%nat = Some v ∧
    (7%nat, v, t) ∈ contents (cache ex_sys) ∧
    head c1 = Some 1%positive ∧
    contents c1 = (7%nat, v, t) :: without 7%nat (contents (cache ex_sys)) ∧
    Get 7%nat c1 = Some (v, c1).
Proof.
  split; [exact ex_init_initial|]. split; [exact ex_run|].
  split; [vm_compute; reflexivity|].
  apply (Get_present_twice ex_trace ex_init ex_sys 7%nat 1%positive).
  - exact ex_init_initial.
  - exact ex_run.
  - vm_compute; reflexivity.
Defined.

Lemma tick_sweeps_expired_witness :
  sweeper ex_sys = Sleeping ∧ stopped (cache ex_sys) = false ∧
  ∃ c', step (ESweeper 101) ex_sys = Some (System c' Sleeping) ∧
    entries c' = filter (λ p, live (heap (cache ex_sys)) 101 p) (entries (cache ex_sys)) ∧
    contents c' = filter (λ it, ¬ (iexp it ≤ 101)%Z) (contents (cache ex_sys)) ∧
    (∀ k p, hash c' !! k = Some p ↔
       hash (cache ex_sys) !! k = Some p ∧ live (heap (cache ex_sys)) 101 p) ∧
    Size c' = length (contents c') ∧ Inv c'.
Proof.
  split; [reflexivity|]. split; [reflexivity|].
  apply (tick_sweeps_expired 101 ex_sys).
  - exact ex_cache_Inv.
  - reflexivity.
  - reflexivity.
Defined.

Lemma structural_invariant_preserved_witness :
  ∃ s', step (EPut 110 9%nat (Some 1%nat)) ex_sys = Some s' ∧
    Inv (cache s') ∧ structural (cache s').
Proof.
  apply (structural_invariant_preserved (EPut 110 9%nat (Some 1%nat)) ex_sys).
  exact ex_cache_Inv.
Defined.

Lemma Stop_ends_sweeping_witness :
  let c := cache ex_sys in
  let tr := [EPut 110 9%nat (Some 1%nat); ESweeper 200] in
  stopped (Stop c) = true ∧ Stop (Stop c) = Stop c ∧
  (capacity (Stop c) = capacity c ∧ ttlSeconds (Stop c) = ttlSeconds c ∧
   head (Stop c) = head c ∧ tail (Stop c) = tail c ∧
   hash (Stop c) = hash c ∧ heap (Stop c) = heap c ∧
   contents (Stop c) = contents c ∧ Size (Stop c) = Size c) ∧
  ∃ s1 s2, step EStop ex_sys = Some s1 ∧ cache s1 = Stop c ∧
    run tr s1 = Some s2 ∧ stopped (cache s2) = true ∧
    ∀ now, ∃ s3, step (ESweeper now) s2 = Some s3 ∧
      cache s3 = cache s2 ∧ sweeper s3 = Gone ∧
      ∀ tr' s4, run tr' s3 = Some s4 → sweeper s4 = Gone.
Proof.
  apply (Stop_ends_sweeping ex_sys [EPut 110 9%nat (Some 1%nat); ESweeper 200]).
  exact ex_cache_Inv.
Defined.

Lemma Put_evicts_least_recent_witness :
  initial ex_init ∧ run ex_trace ex_init = Some ex_sys ∧
  Z.of_nat (Size (cache ex_sys)) = capacity (cache ex_sys) ∧
  hash (cache ex_sys) !! 9%nat = None ∧
  ∃ c', Put 110 9%nat (Some 1%nat) (cache ex_sys) = Some c' ∧
    (Z.of_nat (Size c') ≤ capacity c')%Z ∧
    ∃ rest victim t,
      contents (cache ex_sys) = rest ++ [victim] ∧
      tail (cache ex_sys) = Some t ∧
      payload <$> heap (cache ex_sys) !! t = Some victim ∧
      contents c' = (9%nat, Some 1%nat, expiry 110 (ttlSeconds (cache ex_sys)) 0) :: rest ∧
      ∀ x, x ∈ contents c' →
        last_touch (ex_trace ++ [EPut 110 9%nat (Some 1%nat)]) (ikey victim)
        < last_touch (ex_trace ++ [EPut 110 9%nat (Some 1%nat)]) (ikey x).
Proof.
  split; [exact ex_init_initial|]. split; [exact ex_run|].
  split; [vm_compute; reflexivity|]. split; [vm_compute; reflexivity|].
  destruct (Put_evicts_least_recent ex_trace ex_init ex_sys 110 9%nat (Some 1%nat)
              ex_init_initial ex_run)
    as (c' & HPut & _ & Hcap & _ & Hfull).
  exists c'. split; [exact HPut|]. split; [exact Hcap|].
  destruct Hfull as (rest & victim & t & Hc & Ht & Hp & Hc' & _ & Hlru);
    [vm_compute; reflexivity|vm_compute; reflexivity|].
  exists rest, victim, t. auto.
Defined.

Lemma constructors_validate_witness :
  ∃ c, NewWithTTL (K:=nat) (V:=nat) 2 1 = Some c ∧
    Capacity c = 2%Z ∧ TTLSeconds c = 1%Z ∧ Size c = 0%nat ∧ entries c = [] ∧
    New (K:=nat) (V:=nat) 0 = None ∧ NewWithTTL (K:=nat) (V:=nat) 2 (-1) = None.
Proof.
  destruct (constructors_validate (K:=nat) (V:=nat) 2 1) as (_ & _ & _ & Hc).
  destruct (constructors_validate (K:=nat) (V:=nat) 0 0) as (HN & _).
  destruct (constructors_validate (K:=nat) (V:=nat) 2 (-1)) as (_ & HT & _).
  eexists. split; [reflexivity|].
  destruct (Hc _ eq_refl) as (? & ? & _ & _ & _ & _ & ? & ? & _).
  repeat (split; [assumption|]).
  split; [apply HN; lia|apply HT; right; lia].
Defined.

Lemma absent_key_unchanged_witness :
  hash ex_cache !! 9%nat = None ∧
  Get 9%nat ex_cache = Some (None, ex_cache) ∧
  Remove 9%nat ex_cache = Some (None, ex_cache).
Proof.
  split; [vm_compute; reflexivity|].
  destruct (absent_key_unchanged ex_cache 9%nat) as (HG & HR & _);
    [vm_compute; reflexivity|].
  split; [exact HG|exact HR].
Defined.

(** * Instances of the further properties *)

Lemma ex_cache_is_list : is_list ex_cache [2%positive; 1%positive].
Proof.
  destruct ex_cache_Inv as [l HR].
  assert (l = [2%positive; 1%positive]) as ->.
  { rewrite <- (Repr_entries _ _ HR). vm_compute. reflexivity. }
  apply HR.
Qed.

Lemma ex_removed_is_list : is_list ex_removed [2%positive].
Proof.
  assert (Inv ex_removed) as [l HR].
  { eapply (reachable_Inv (ex_trace ++ [ERemove 7%nat]) ex_init);
      [exact ex_init_initial|vm_compute; reflexivity]. }
  assert (l = [2%positive]) as ->.
  { rewrite <- (Repr_entries _ _ HR). vm_compute. reflexivity. }
  apply HR.
Qed.

Lemma ex_one_initial : initial ex_one_init.
Proof. right. by exists 1%Z, 0%Z. Qed.

Lemma ex_one_run : run ex_one_trace ex_one_init = Some ex_one_sys.
Proof. vm_compute. reflexivity. Qed.

Lemma ex_huge_initial : initial ex_huge_init.
Proof. right. by exists 2%Z, (2 ^ 63 - 1)%Z. Qed.


Lemma Clear_empties_witness :
  (0 < capacity ex_cache)%Z ∧
  Size (Clear ex_cache) = 0%nat ∧ contents (Clear ex_cache) = [] ∧
  Capacity (Clear ex_cache) = 2%Z ∧
  Get 7%nat (Clear ex_cache) = Some (None, Clear ex_cache).
Proof.
  split; [reflexivity|].
  destruct (Clear_empties ex_cache) as (_ & HS & _ & Hc & Hcap & _ & _ & HG);
    [reflexivity|].
  split; [exact HS|]. split; [exact Hc|]. split; [exact Hcap|].
  exact (proj1 (HG 7%nat)).
Defined.

Lemma configuration_fixed_witness :
  initial ex_init ∧ run ex_trace ex_init = Some ex_sys ∧
  Capacity (cache ex_sys) = Capacity (cache ex_init) ∧
  TTLSeconds (cache ex_sys) = TTLSeconds (cache ex_init).
Proof.
  split; [exact ex_init_initial|]. split; [exact ex_run|].
  destruct (configuration_fixed ex_trace ex_init ex_sys ex_init_initial ex_run)
    as (Hc & Ht & _).
  split; [exact Hc|exact Ht].
Defined.

Lemma traces_never_panic_witness :
  initial ex_init ∧
  ∃ s, run (ex_trace ++ [ERemove 9%nat; EClear; EGet 7%nat]) ex_init = Some s ∧
    Size (cache s) = length (entries (cache s)) ∧
    (Z.of_nat (Size (cache s)) ≤ Capacity (cache s))%Z ∧
    NoDup (ikey <$> contents (cache s)).
Proof.
  split; [exact ex_init_initial|].
  exact (traces_never_panic (ex_trace ++ [ERemove 9%nat; EClear; EGet 7%nat])
           ex_init ex_init_initial).
Defined.

Lemma Put_then_Get_witness :
  Inv ex_cache ∧
  ∃ c1, Put 110 9%nat (Some 5%nat) ex_cache = Some c1 ∧
    Get 9%nat c1 = Some (Some 5%nat, c1) ∧
    is_Some (hash c1 !! 9%nat) ∧ 1 ≤ Size c1.
Proof.
  split; [exact ex_cache_Inv|].
  exact (Put_then_Get 110 ex_cache 9%nat (Some 5%nat) ex_cache_Inv).
Defined.

Lemma Remove_then_absent_witness :
  Inv ex_cache ∧
  ∃ r c1, Remove 7%nat ex_cache = Some (r, c1) ∧ Inv c1 ∧
    contents c1 = without 7%nat (contents ex_cache) ∧ Size c1 ≤ Size ex_cache ∧
    hash c1 !! 7%nat = None ∧
    Get 7%nat c1 = Some (None, c1) ∧ Remove 7%nat c1 = Some (None, c1).
Proof.
  split; [exact ex_cache_Inv|].
  exact (Remove_then_absent ex_cache 7%nat ex_cache_Inv).
Defined.

Lemma Get_keeps_entries_witness :
  Inv ex_cache ∧
  ∃ r c', Get 7%nat ex_cache = Some (r, c') ∧ Inv c' ∧
    hash c' = hash ex_cache ∧ Size c' = Size ex_cache ∧ same_config ex_cache c' ∧
    contents c' ≡ₚ contents ex_cache.
Proof.
  split; [exact ex_cache_Inv|].
  exact (Get_keeps_entries ex_cache 7%nat ex_cache_Inv).
Defined.

Lemma Put_leaves_others_witness :
  Inv ex_cache ∧
  ∃ c' t rest, Put 110 9%nat (Some 5%nat) ex_cache = Some c' ∧
    contents c' = (9%nat, Some 5%nat, t) :: rest ∧
    rest `sublist_of` contents ex_cache ∧ (9%nat ∉ ikey <$> rest) ∧
    ((0 < ttlSeconds ex_cache)%Z → t = wrap64 (110 + ttlSeconds ex_cache)).
Proof.
  split; [exact ex_cache_Inv|].
  exact (Put_leaves_others 110 ex_cache 9%nat (Some 5%nat) ex_cache_Inv).
Defined.

Lemma latest_entry_survives_next_Put_witness :
  Inv ex_cache ∧ (2 ≤ capacity ex_cache)%Z ∧
  ∃ c1 c2 c3, Put 110 9%nat (Some 5%nat) ex_cache = Some c1 ∧
    Put 111 10%nat (Some 6%nat) c1 = Some c2 ∧
    Get 9%nat c2 = Some (Some 5%nat, c3).
Proof.
  split; [exact ex_cache_Inv|]. split; [vm_compute; discriminate|].
  apply (latest_entry_survives_next_Put 110 111 ex_cache 9%nat (Some 5%nat)
           10%nat (Some 6%nat) ex_cache_Inv).
  - vm_compute; discriminate.
  - discriminate.
Defined.

Lemma capacity_one_keeps_last_witness :
  capacity (cache ex_one_sys) = 1%Z ∧ hash (cache ex_one_sys) !! 8%nat = None ∧
  Size (cache ex_one_sys) = 1%nat ∧
  ∃ c', Put 5 8%nat (Some 2%nat) (cache ex_one_sys) = Some c' ∧
    contents c' = [(8%nat, Some 2%nat, expiry 5 (ttlSeconds (cache ex_one_sys)) 0)] ∧
    Size c' = 1%nat.
Proof.
  split; [reflexivity|]. split; [vm_compute; reflexivity|].
  split; [vm_compute; reflexivity|].
  apply (capacity_one_keeps_last 5 (cache ex_one_sys) 8%nat (Some 2%nat)).
  - exact (reachable_Inv ex_one_trace ex_one_init ex_one_sys ex_one_initial ex_one_run).
  - reflexivity.
  - vm_compute; reflexivity.
Defined.

Lemma expiry_from_last_Put_witness :
  initial ex_init ∧ run ex_trace ex_init = Some ex_sys ∧
  (7%nat, Some 42%nat, 101%Z) ∈ contents (cache ex_sys) ∧
  ∃ t, last_put_time ex_trace 7%nat = Some t ∧
    101%Z = if (0 <? TTLSeconds (cache ex_sys))%Z
            then wrap64 (t + TTLSeconds (cache ex_sys)) else 0%Z.
Proof.
  assert ((7%nat, Some 42%nat, 101%Z) ∈ contents (cache ex_sys)) as Hin.
  { apply list_elem_of_In. vm_compute. auto. }
  split; [exact ex_init_initial|]. split; [exact ex_run|]. split; [exact Hin|].
  exact (expiry_from_last_Put ex_trace ex_init ex_sys (7%nat, Some 42%nat, 101%Z)
           ex_init_initial ex_run Hin).
Defined.

Lemma ttl_disabled_never_sweeps_witness :
  initial ex_one_init ∧ TTLSeconds (cache ex_one_init) = 0%Z ∧
  run ex_one_trace ex_one_init = Some ex_one_sys ∧
  sweeper ex_one_sys ≠ Sleeping ∧
  ∀ now, ∃ s', step (ESweeper now) ex_one_sys = Some s' ∧
    cache s' = cache ex_one_sys ∧ sweeper s' = Gone.
Proof.
  split; [exact ex_one_initial|]. split; [reflexivity|]. split; [exact ex_one_run|].
  exact (ttl_disabled_never_sweeps ex_one_trace ex_one_init ex_one_sys
           ex_one_initial eq_refl ex_one_run).
Defined.

Lemma entry_lifetime_witness :
  Inv ex_cache ∧ stopped ex_cache = false ∧ (0 < ttlSeconds ex_cache)%Z ∧
  ∃ c1 c2, Put 200 9%nat (Some 5%nat) ex_cache = Some c1 ∧
    tick 200 c1 = Some (c2, false) ∧
    ((200 < 200 + ttlSeconds ex_cache)%Z → ∃ c3, Get 9%nat c2 = Some (Some 5%nat, c3)) ∧
    ((200 + ttlSeconds ex_cache ≤ 200)%Z →
       hash c2 !! 9%nat = None ∧ Get 9%nat c2 = Some (None, c2)).
Proof.
  split; [exact ex_cache_Inv|]. split; [reflexivity|]. split; [reflexivity|].
  apply (entry_lifetime 200 200 ex_cache 9%nat (Some 5%nat) ex_cache_Inv).
  - reflexivity.
  - reflexivity.
  - vm_compute. split; [discriminate|reflexivity].
Defined.

Lemma ttl_overflow_expires_at_once_witness :
  Inv (cache ex_huge_init) ∧ (0 < ttlSeconds (cache ex_huge_init))%Z ∧
  (2 ^ 63 ≤ 100 + ttlSeconds (cache ex_huge_init) < 2 ^ 64)%Z ∧
  ∃ c1 c2 rest, Put 100 7%nat (Some 1%nat) (cache ex_huge_init) = Some c1 ∧
    contents c1 =
      (7%nat, Some 1%nat, (100 + ttlSeconds (cache ex_huge_init) - 2 ^ 64)%Z) :: rest ∧
    tick 100 c1 = Some (c2, false) ∧
    hash c2 !! 7%nat = None ∧ Get 7%nat c2 = Some (None, c2).
Proof.
  assert (Inv (cache ex_huge_init)) as HI
    by exact (reachable_Inv [] ex_huge_init ex_huge_init ex_huge_initial eq_refl).
  split; [exact HI|]. split; [reflexivity|].
  split; [vm_compute; split; [discriminate|reflexivity]|].
  apply (ttl_overflow_expires_at_once 100 100 (cache ex_huge_init) 7%nat (Some 1%nat) HI).
  - reflexivity.
  - reflexivity.
  - vm_compute; split; [discriminate|reflexivity].
  - discriminate.
Defined.


Lemma unlink_takes_out_witness :
  is_list ex_cache [2%positive; 1%positive] ∧
  ∃ c' en, heap ex_cache !! 2%positive = Some en ∧
    unlink 2%positive ex_cache = Some c' ∧
    is_list c' [1%positive] ∧ entries c' = [1%positive] ∧
    heap c' !! 2%positive = Some (Entry None None (key en) (value en) (expireTime en)) ∧
    hash c' = hash ex_cache.
Proof.
  split; [exact ex_cache_is_list|].
  destruct (unlink_takes_out ex_cache [2%positive; 1%positive] 0 2%positive
              ex_cache_is_list eq_refl)
    as (c' & en & Hen & Hun & Hil & He & Hcell & Hh & _).
  exists c', en. split; [exact Hen|]. split; [exact Hun|]. split; [exact Hil|].
  split; [exact He|]. split; [exact Hcell|exact Hh].
Defined.

Lemma prepend_then_unlink_witness :
  is_list ex_removed [2%positive] ∧ (1%positive ∉ [2%positive]) ∧
  ∃ c1 c2, prepend 1%positive ex_removed = Some c1 ∧
    is_list c1 [1%positive; 2%positive] ∧ entries c1 = [1%positive; 2%positive] ∧
    unlink 1%positive c1 = Some c2 ∧ is_list c2 [2%positive] ∧
    entries c2 = [2%positive].
Proof.
  assert (1%positive ∉ [2%positive]) as Hnot.
  { intros Hin. apply list_elem_of_In in Hin. simpl in Hin.
    destruct Hin as [Hin|[]]. discriminate. }
  split; [exact ex_removed_is_list|]. split; [exact Hnot|].
  destruct (prepend_then_unlink ex_removed [2%positive] 1%positive
              (Entry None None 7%nat (Some 42%nat) 101) ex_removed_is_list Hnot)
    as (c1 & c2 & Hpr & Hil1 & He1 & _ & _ & _ & _ & _ & Hun & Hil2 & He2 & _).
  - vm_compute; reflexivity.
  - reflexivity.
  - exists c1, c2. split; [exact Hpr|]. split; [exact Hil1|]. split; [exact He1|].
    split; [exact Hun|]. split; [exact Hil2|exact He2].
Defined.

Lemma tick_twice_witness :
  Inv ex_cache ∧ stopped ex_cache = false ∧
  ∃ c1 c2, tick 101 ex_cache = Some (c1, false) ∧
    (∀ x, x ∈ contents c1 → (101 < iexp x)%Z) ∧
    tick 100 c1 = Some (c2, false) ∧
    contents c2 = contents c1 ∧ Size c2 = Size c1.
Proof.
  split; [exact ex_cache_Inv|]. split; [reflexivity|].
  apply (tick_twice 101 100 ex_cache ex_cache_Inv).
  - reflexivity.
  - discriminate.
Defined.

Lemma recency_order_witness :
  initial ex_init ∧ run ex_trace ex_init = Some ex_sys ∧
  contents (cache ex_sys) !! 0%nat = Some (8%nat, Some 43%nat, 102%Z) ∧
  contents (cache ex_sys) !! 1%nat = Some (7%nat, Some 42%nat, 101%Z) ∧
  0 < last_touch ex_trace 7%nat ∧
  last_touch ex_trace 7%nat < last_touch ex_trace 8%nat.
Proof.
  split; [exact ex_init_initial|]. split; [exact ex_run|].
  split; [vm_compute; reflexivity|]. split; [vm_compute; reflexivity|].
  apply (recency_order ex_trace ex_init ex_sys 0 1
           (8%nat, Some 43%nat, 102%Z) (7%nat, Some 42%nat, 101%Z)
           ex_init_initial ex_run).
  - vm_compute; reflexivity.
  - vm_compute; reflexivity.
  - constructor.
Defined.

Lemma entries_hold_last_Put_witness :
  initial ex_init ∧ run ex_trace ex_init = Some ex_sys ∧
  (8%nat, Some 43%nat, 102%Z) ∈ contents (cache ex_sys) ∧
  last_put ex_trace 8%nat = Some (Some 43%nat) ∧
  ∃ c', Get 8%nat (cache ex_sys) = Some (Some 43%nat, c').
Proof.
  assert ((8%nat, Some 43%nat, 102%Z) ∈ contents (cache ex_sys)) as Hin.
  { apply list_elem_of_In. vm_compute. auto. }
  split; [exact ex_init_initial|]. split; [exact ex_run|]. split; [exact Hin|].
  exact (entries_hold_last_Put ex_trace ex_init ex_sys (8%nat, Some 43%nat, 102%Z)
           ex_init_initial ex_run Hin).
Defined.
